(** * opwire-testkit: the HTTP invoker (lib/engine/HttpInvoker.go)

    A shallow embedding of the invocation-and-capture pipeline: URL
    resolution, request construction, interceptor dispatch, transcript
    rendering, expectation synthesis and snapshot serialization.

    Conventions of the embedding.
    - A Go pointer that may be nil is an [option]; a Go [(T, error)] pair
      whose value is read only when the error is nil is a [Result]; where
      the code reads the value regardless of the error it stays a pair.
    - [http.Header] and every other Go map is a [gmap]; the order in which
      a [range] loop visits a map is not fixed by the language, so it is
      drawn from the runtime ([mapiter], indexed by a counter in the world).
    - Functions of other packages ([encoding/json], [gopkg.in/yaml.v2],
      [net/http], [utils.UrlJoin]) are fields of [Externals].
    - Output sinks, the network and the runtime counter form the [World],
      threaded through the state monad [M]. *)

From Stdlib Require Import Ascii.
From stdpp Require Import gmap strings list fin_maps pretty.

(** ** Go values *)

Definition error := string.

Inductive Result (A : Type) : Type :=
| Ok (a : A)
| Err (e : error).
Arguments Ok {A} a.
Arguments Err {A} e.

(** What a call does: it returns, or it panics (nil dereference). *)
Inductive Outcome (A : Type) : Type :=
| Returned (a : A)
| Panicked.
Arguments Returned {A} a.
Arguments Panicked {A}.

(** [http.Header]: header name to the list of its values. *)
Abbreviation Header := (gmap string (list string)).

(** [io.Writer] handles; two interceptors may hold the same one. *)
Abbreviation Writer := nat.

(** ** Types declared in HttpInvoker.go *)

Record HttpInvokerOptions := {
  opts_PDP : string;
  opts_Version : string
}.

Record TestGenerator := {
  gen_Version : string
}.

Record HttpInvoker := {
  pdp : string;
  generator : TestGenerator
}.

Record HttpHeader := {
  hh_Name : string;
  hh_Value : string
}.

Record HttpRequest := {
  req_Method : string;
  req_Url : string;
  req_PDP : string;
  req_Path : string;
  req_Headers : list HttpHeader;
  req_Body : string
}.

Record HttpResponse := {
  res_Status : string;
  res_StatusCode : Z;
  res_Version : string;
  res_Header : Header;
  res_ContentLength : Z;
  res_Body : string
}.

Record ExplanationWriter := {
  GetConsoleOut : option Writer;
  GetConsoleErr : option Writer
}.

Record SnapshotGenerator := {
  GetTargetWriter : option Writer
}.

(** [Interceptor] is the empty interface; the two fields are the results of
    the type assertions [interceptor.(ExplanationWriter)] and
    [interceptor.(SnapshotGenerator)] ([None]: the assertion fails, as it
    does for a nil interceptor). *)
Record Interceptor := {
  as_ExplanationWriter : option ExplanationWriter;
  as_SnapshotGenerator : option SnapshotGenerator
}.

Definition DEFAULT_PDP : string := "http://localhost:17779".

(** ** Types of the engine package declared outside HttpInvoker.go *)

(** Modelled from the spec: the assertion records [MeasureStatusCode],
    [MeasureHeader], [MeasureHeaders], [MeasureBody], [Expectation] and
    [TestCase] are declared in another file of the engine package, which
    HttpInvoker.go does not show. The fields are those the invoker assigns,
    with the document names the spec gives them ([is-equal-to],
    [has-total], [has-format], [includes], [match-with]). *)
Record MeasureStatusCode := {
  sc_IsEqualTo : option Z
}.

Record MeasureHeader := {
  mh_Name : option string;
  mh_IsEqualTo : option string
}.

Record MeasureHeaders := {
  hs_HasTotal : option Z;
  hs_Items : list MeasureHeader
}.

Record MeasureBody := {
  mb_HasFormat : option string;
  mb_Includes : option string;
  mb_IsEqualTo : option string;
  mb_MatchWith : option string
}.

Record Expectation := {
  exp_StatusCode : option MeasureStatusCode;
  exp_Headers : option MeasureHeaders;
  exp_Body : option MeasureBody
}.

Record TestCase := {
  tc_Title : string;
  tc_Version : string;
  tc_Request : option HttpRequest;
  tc_Expectation : option Expectation
}.

Record GeneratedSnapshot := {
  TestCases : list TestCase
}.

(** Modelled from the spec: [utils.RefOfString] is defined in the utils
    package outside StringUtil.go; it returns a pointer to a copy of its
    argument. *)
Definition RefOfString (s : string) : option string := Some s.

(** ** Types of net/http the invoker reads *)

Record URL := {
  url_RequestURI : string;
  url_Path : string;
  url_Host : string
}.

Record Request := {
  lr_Method : string;
  lr_URL : option URL;
  lr_Proto : string;
  lr_Header : Header
}.

(** [lres_Body] is [None] for a nil body; otherwise it holds what
    [ioutil.ReadAll] yields on it. *)
Record Response := {
  lres_Proto : string;
  lres_Status : string;
  lres_StatusCode : Z;
  lres_Header : Header;
  lres_Body : option (string * option error)
}.

(** ** The world and the external collaborators *)

Inductive NetEvent :=
| EvSend (r : Request)
| EvClose.

Record World := {
  rng : nat;
  net : list NetEvent;
  sinks : gmap Writer (list string)
}.

(** Functions of other packages. [Obj] is [map[string]interface{}];
    the decoders receive the target map and return it updated, together
    with their error. [mapiter n m] is the order in which the [n]-th
    [range] loop of the run visits [m]. *)
Record Externals := {
  Obj : Type;
  make_map : Obj;
  json_Unmarshal : string → Obj → Obj * option error;
  json_MarshalIndent : Obj → string → string → Result string;
  yaml_Unmarshal : string → Obj → Obj * option error;
  yaml_Marshal : Obj → Result string;
  yaml_Marshal_snapshot : GeneratedSnapshot → Result string;
  UrlJoin : string → string → string * option error;
  http_NewRequest : string → string → option string → Result Request;
  CanonicalMIMEHeaderKey : string → string;
  httpClient_Do : Request → option Response * option error;
  mapiter : nat → Header → list (string * list string)
}.

(** The one guarantee Go gives for [range] over a map: every entry is
    visited exactly once. *)
Definition mapiter_visits_once (X : Externals) : Prop :=
  ∀ n (m : Header), mapiter X n m ≡ₚ map_to_list m.

(** ** The state monad *)

Definition M (A : Type) : Type := World → A * World.

#[global] Instance M_ret : MRet M := λ A a σ, (a, σ).

#[global] Instance M_bind : MBind M :=
  λ A B k m σ, let '(a, σ') := m σ in k a σ'.

Fixpoint forM_ {A} (l : list A) (body : A → M unit) : M unit :=
  match l with
  | [] => mret ()
  | a :: l' => body a;; forM_ l' body
  end.

Definition nl : string := String (Ascii.ascii_of_nat 10) "".

(** [len(s) > 0] *)
Definition nonempty (s : string) : bool :=
  match s with
  | EmptyString => false
  | String _ _ => true
  end.

(** [fmt.Fprintln(w, a...)]: the operands separated by spaces and a
    newline reach the sink; the writer's own error is dropped by every
    caller. *)
Definition Fprintln (w : Writer) (operands : list string) : M unit :=
  λ σ, ((), {| rng := rng σ; net := net σ;
               sinks := <[w := default [] (sinks σ !! w)
                               ++ [String.concat " " operands +:+ nl]]> (sinks σ) |}).

(** [for key, vals := range m]: the visiting order of this loop. *)
Definition range (X : Externals) (m : Header) : M (list (string * list string)) :=
  λ σ, (mapiter X (rng σ) m,
        {| rng := S (rng σ); net := net σ; sinks := sinks σ |}).

Definition emit (ev : NetEvent) : M unit :=
  λ σ, ((), {| rng := rng σ; net := net σ ++ [ev]; sinks := sinks σ |}).

(** ** Expectation synthesis *)

Section Engine.
Context (X : Externals).

(** Lines 240-250: one pass of the loop body over a visited entry. *)
Definition itemize (items : list MeasureHeader) (kv : string * list string)
  : list MeasureHeader :=
  match kv.2 with
  | [value] => items ++ [ {| mh_Name := Some kv.1; mh_IsEqualTo := Some value |} ]
  | _ => items
  end.

(** Lines 233-251. *)
Definition measureHeaders (h : Header) : M (option MeasureHeaders) :=
  let total := Z.of_nat (size h) in
  if (0 <? total)%Z then
    visited ← range X h;
    mret (Some {| hs_HasTotal := Some total;
                 hs_Items := foldl itemize [] visited |})
  else mret None.

Definition set_format (b : MeasureBody) (tag content : string) : MeasureBody :=
  {| mb_HasFormat := RefOfString tag; mb_Includes := Some content;
     mb_IsEqualTo := mb_IsEqualTo b; mb_MatchWith := mb_MatchWith b |}.

(** Lines 256-268: the JSON attempt on the shared target map [obj]. *)
Definition try_json (body : string) (b : MeasureBody) (obj : Obj X)
  : MeasureBody * Obj X :=
  match mb_HasFormat b with
  | Some _ => (b, obj)
  | None =>
      let '(obj', err) := json_Unmarshal X body obj in
      match err with
      | None =>
          let content :=
            match json_MarshalIndent X obj' "" "  " with
            | Ok out => out
            | Err _ => body
            end in
          (set_format b "json" content, obj')
      | Some _ => (b, obj')
      end
  end.

(** Lines 270-281: the YAML attempt, on the same target map. *)
Definition try_yaml (body : string) (b : MeasureBody) (obj : Obj X)
  : MeasureBody * Obj X :=
  match mb_HasFormat b with
  | Some _ => (b, obj)
  | None =>
      let '(obj', err) := yaml_Unmarshal X body obj in
      match err with
      | None =>
          let content :=
            match yaml_Marshal X obj' with
            | Ok out => out
            | Err _ => body
            end in
          (set_format b "yaml" content, obj')
      | Some _ => (b, obj')
      end
  end.

(** Lines 283-287. *)
Definition try_flat (body : string) (b : MeasureBody) : MeasureBody :=
  match mb_HasFormat b with
  | Some _ => b
  | None =>
      {| mb_HasFormat := RefOfString "flat"; mb_Includes := mb_Includes b;
         mb_IsEqualTo := RefOfString body; mb_MatchWith := RefOfString ".*" |}
  end.

(** Lines 253-287. *)
Definition measureBody (body : string) : MeasureBody :=
  let b0 := {| mb_HasFormat := None; mb_Includes := None;
               mb_IsEqualTo := None; mb_MatchWith := None |} in
  let obj := make_map X in
  let '(b1, obj1) := try_json body b0 obj in
  let '(b2, _) := try_yaml body b1 obj1 in
  try_flat body b2.

Definition generateExpectation (g : TestGenerator) (res : option HttpResponse)
  : M (option Expectation) :=
  match res with
  | None => mret None
  | Some res =>
      let sc := res_StatusCode res in
      headers ← measureHeaders (res_Header res);
      mret (Some {| exp_StatusCode := Some {| sc_IsEqualTo := Some sc |};
                   exp_Headers := headers;
                   exp_Body := Some (measureBody (res_Body res)) |})
  end.

(** ** Snapshot serialization *)

(** Lines 201-219. *)
Definition generateTestCase (g : TestGenerator) (w : Writer)
    (req : option HttpRequest) (res : option HttpResponse) : M (option error) :=
  e ← generateExpectation g res;
  let s := {| tc_Title := "<Generated testcase>";
              tc_Version := gen_Version g;
              tc_Request := req;
              tc_Expectation := e |} in
  let r := {| TestCases := [s] |} in
  match yaml_Marshal_snapshot X r with
  | Err err =>
      Fprintln w ["Cannot marshal generated testcase, error: %s"; err];;
      mret (Some err)
  | Ok script =>
      Fprintln w [];;
      Fprintln w [script];;
      mret None
  end.

(** ** Transcript rendering *)

(** [http.Header.Add] and [http.Header.Get]. *)
Definition Header_Add (h : Header) (key value : string) : Header :=
  let k := CanonicalMIMEHeaderKey X key in
  <[k := default [] (h !! k) ++ [value]]> h.

Definition Header_Get (h : Header) (key : string) : string :=
  match h !! CanonicalMIMEHeaderKey X key with
  | Some (v :: _) => v
  | _ => ""
  end.

(** The [UserAgent] method of [http.Request]. *)
Definition UserAgent (req : Request) : string :=
  Header_Get (lr_Header req) "User-Agent".

Definition append_if (line : list string) (s : string) : list string :=
  if nonempty s then line ++ [s] else line.

(** The nested loops that print one line per header value. *)
Definition renderHeaders (w : Writer) (mark : string) (h : Header) : M unit :=
  visited ← range X h;
  forM_ visited (λ kv,
    forM_ kv.2 (λ val, Fprintln w [mark +:+ kv.1 +:+ ": " +:+ val])).

(** Lines 134-171. *)
Definition renderRequest (w : Writer) (req : Request) : M (option error) :=
  let line := [">"] in
  let line := append_if line (lr_Method req) in
  let line :=
    match lr_URL req with
    | Some u =>
        let reqURI := url_RequestURI u in
        if nonempty reqURI then line ++ [reqURI]
        else append_if line (url_Path u)
    | None => line
    end in
  let line := append_if line (lr_Proto req) in
  Fprintln w [String.concat " " line];;
  match lr_URL req with
  | Some u =>
      if nonempty (url_Host u) then Fprintln w ["> Host: " +:+ url_Host u]
      else mret ()
  | None => mret ()
  end;;
  let userAgent := UserAgent req in
  (if nonempty userAgent then Fprintln w ["> User-Agent: " +:+ userAgent]
   else mret ());;
  renderHeaders w "> " (lr_Header req);;
  Fprintln w [">"];;
  mret None.

(** Lines 173-195. *)
Definition renderResponse (w : Writer) (res : HttpResponse) : M (option error) :=
  let line := ["<"] in
  let line := append_if line (res_Version res) in
  let line :=
    if nonempty (res_Status res) then line ++ [res_Status res]
    else line ++ [pretty (res_StatusCode res)] in
  Fprintln w [String.concat " " line];;
  renderHeaders w "< " (res_Header res);;
  Fprintln w ["<"];;
  Fprintln w [res_Body res];;
  mret None.

(** ** The invoker *)

(** Lines 26-37. With nil options the last assignment dereferences nil. *)
Definition NewHttpInvoker (opts : option HttpInvokerOptions)
  : Outcome (HttpInvoker * option error) :=
  let c_pdp := match opts with Some o => opts_PDP o | None => "" end in
  let c_pdp := if nonempty c_pdp then c_pdp else DEFAULT_PDP in
  match opts with
  | None => Panicked
  | Some o =>
      Returned ({| pdp := c_pdp;
                   generator := {| gen_Version := opts_Version o |} |}, None)
  end.

(** Lines 44-55; the error of [UrlJoin] is dropped. *)
Definition resolveUrl (c : HttpInvoker) (req : HttpRequest) : string :=
  let url := req_Url req in
  if nonempty url then url
  else
    let pdp := pdp c in
    let pdp := if nonempty (req_PDP req) then req_PDP req else pdp in
    let basePath := "/$" in
    let basePath := if nonempty (req_Path req) then req_Path req else basePath in
    (UrlJoin X pdp basePath).1.

(** Lines 78-82. *)
Definition addHeaders (lowReq : Request) (headers : list HttpHeader) : Request :=
  foldl (λ r header,
    if nonempty (hh_Name header) && nonempty (hh_Value header) then
      {| lr_Method := lr_Method r; lr_URL := lr_URL r; lr_Proto := lr_Proto r;
         lr_Header := Header_Add (lr_Header r) (hh_Name header) (hh_Value header) |}
    else r) lowReq headers.

(** Lines 85-92. *)
Definition preStep (lowReq : Request) (interceptor : Interceptor) : M unit :=
  match as_ExplanationWriter interceptor with
  | Some monitor =>
      match GetConsoleOut monitor with
      | Some w => renderRequest w lowReq;; mret ()
      | None => mret ()
      end
  | None => mret ()
  end.

(** Lines 116-129: the body of the post-processing loop. The value
    [generateTestCase] returns is not bound to anything. *)
Definition postStep (c : HttpInvoker) (req : HttpRequest) (res : HttpResponse)
    (interceptor : Interceptor) : M unit :=
  match as_ExplanationWriter interceptor with
  | Some monitor =>
      match GetConsoleOut monitor with
      | Some w => renderResponse w res;; mret ()
      | None => mret ()
      end
  | None => mret ()
  end;;
  match as_SnapshotGenerator interceptor with
  | Some snapshot =>
      match GetTargetWriter snapshot with
      | Some w => generateTestCase (generator c) w (Some req) (Some res);; mret ()
      | None => mret ()
      end
  | None => mret ()
  end.

Definition postProcess (c : HttpInvoker) (req : HttpRequest) (res : HttpResponse)
    (interceptors : list Interceptor) : M unit :=
  forM_ interceptors (postStep c req res).

(** Lines 103-113: the capture, once the transport has answered without
    error. A nil response or a nil body is dereferenced. *)
Definition capture (lowRes : Response) (data : string) : HttpResponse :=
  {| res_Status := lres_Status lowRes;
     res_StatusCode := lres_StatusCode lowRes;
     res_Version := lres_Proto lowRes;
     res_Header := lres_Header lowRes;
     res_ContentLength := 0;
     res_Body := data |}.

(** Lines 39-132. [deferred] is the [defer lowRes.Body.Close()] of line 97,
    run on every return that follows its registration. *)
Definition Do (c : HttpInvoker) (req : option HttpRequest)
    (interceptors : list Interceptor)
  : M (Outcome (option HttpResponse * option error)) :=
  match req with
  | None => mret (Returned (None, Some "Request must not be nil"))
  | Some req =>
      let url := resolveUrl c req in
      let method := if nonempty (req_Method req) then req_Method req else "GET" in
      let body := if nonempty (req_Body req) then Some (req_Body req) else None in
      match http_NewRequest X method url body with
      | Err err => mret (Returned (None, Some err))
      | Ok lowReq =>
          let lowReq := addHeaders lowReq (req_Headers req) in
          forM_ interceptors (preStep lowReq);;
          emit (EvSend lowReq);;
          let '(lowRes, err) := httpClient_Do X lowReq in
          let deferred : M unit :=
            match lowRes with
            | Some r => if lres_Body r is Some _ then emit EvClose else mret ()
            | None => mret ()
            end in
          match err, lowRes with
          | Some err, _ => deferred;; mret (Returned (None, Some err))
          | None, None => mret Panicked
          | None, Some lowRes =>
              match lres_Body lowRes with
              | None => mret Panicked
              | Some (data, Some err) => deferred;; mret (Returned (None, Some err))
              | Some (data, None) =>
                  let res := capture lowRes data in
                  postProcess c req res interceptors;;
                  deferred;;
                  mret (Returned (Some res, None))
              end
          end
      end
  end.

End Engine.

(** ** lib/utils/StringUtil.go: [ConvertTabToSpaces]

    The function looks at its input rune by rune ([IndexFunc],
    [TrimLeftFunc]) and its separators, tab and line feed, are one-byte
    runes; a character of the embedding stands for one rune. *)

Definition tab : ascii := Ascii.ascii_of_nat 9.
Definition line_feed : ascii := Ascii.ascii_of_nat 10.

(** [strings.Split(s, "\n")]: the pieces between line feeds, one more
    than there are line feeds. *)
Fixpoint Split_lines (s : string) : list string :=
  match s with
  | EmptyString => [EmptyString]
  | String c s' =>
      if decide (c = line_feed) then EmptyString :: Split_lines s'
      else match Split_lines s' with
           | line :: rest => String c line :: rest
           | [] => [String c EmptyString]
           end
  end.

(** [strings.Join(lines, "\n")] *)
Definition Join_lines (lines : list string) : string :=
  String.concat nl lines.

(** [strings.IndexFunc(s, f)]: index of the first rune satisfying [f],
    or -1. *)
Fixpoint IndexFunc_from (i : Z) (s : string) (f : ascii → bool) : Z :=
  match s with
  | EmptyString => (-1)%Z
  | String c s' => if f c then i else IndexFunc_from (i + 1)%Z s' f
  end.

Definition IndexFunc (s : string) (f : ascii → bool) : Z :=
  IndexFunc_from 0 s f.

(** [strings.TrimLeftFunc(s, f)] for a closure [f] with captured state:
    [f] is called on the runes from the left until it answers false. *)
Fixpoint TrimLeftFunc {S : Type} (s : string) (f : S → ascii → bool * S)
    (st : S) : string :=
  match s with
  | EmptyString => EmptyString
  | String c s' =>
      let '(b, st') := f st c in
      if b then TrimLeftFunc s' f st' else s
  end.

(** [strings.ReplaceAll(s, old, new)] for a one-byte [old]. *)
Fixpoint ReplaceAll (s : string) (old : ascii) (new : string) : string :=
  match s with
  | EmptyString => EmptyString
  | String c s' =>
      if decide (c = old) then new +:+ ReplaceAll s' old new
      else String c (ReplaceAll s' old new)
  end.

(** Line 34: the index of the first rune that is not a tab. *)
Definition tablen (line : string) : Z :=
  IndexFunc line (λ c, bool_decide (c ≠ tab)).

(** Lines 32-43: the indent length. *)
Definition detectIndent (lines : list string) : Z :=
  let indent :=
    foldl (λ indent line,
             if bool_decide (indent < 0)%Z || bool_decide (indent > tablen line)%Z
             then tablen line else indent)
          (-1)%Z lines in
  if bool_decide (indent < 0)%Z then 0%Z else indent.

(** Lines 45-47: the dedent length in force. *)
Definition effectiveDedent (lines : list string) (dedent : Z) : Z :=
  let indent := detectIndent lines in
  if bool_decide (dedent = 0)%Z || bool_decide (dedent > indent)%Z
  then indent else dedent.

(** Lines 50-55: the function mapped over the lines; [count] is the
    variable the closure captures. *)
Definition dedentLine (dedent : Z) (line : string) (number : Z) : string :=
  let count := 0%Z in
  let line :=
    TrimLeftFunc line
      (λ count r, let count := (count + 1)%Z in
                  (bool_decide (count ≤ dedent)%Z, count))
      count in
  ReplaceAll line tab "  ".

Section StringUtil.
(** [utils.Map] is defined outside StringUtil.go; it is a parameter. *)
Context (Map : list string → (string → Z → string) → list string).

(** Lines 29-58. *)
Definition ConvertTabToSpaces (block : string) (dedent : Z) : string :=
  let lines := Split_lines block in
  let dedent := effectiveDedent lines dedent in
  let lines := Map lines (dedentLine dedent) in
  Join_lines lines.

End StringUtil.

(** What [utils.Map] is taken to do: apply the function to every element
    and its index, in order. *)
Definition Map_applies
    (Map : list string → (string → Z → string) → list string) : Prop :=
  ∀ lines f, Map lines f = imap (λ i line, f line (Z.of_nat i)) lines.

(** ** Reference collaborators

    Doubles of the external functions, small enough to evaluate the
    pipeline on concrete responses. The decoders handle flat documents
    whose values are decimal numbers: [{"a":1}] for JSON, lines [a: 1]
    for YAML. Like [yaml.Unmarshal] of yaml.v2, the YAML double finds no
    node in an empty buffer, leaves the target alone and reports no error. *)
Module Ref.

Inductive jtok :=
| TLBrace | TRBrace | TColon | TComma
| TStr (s : string)
| TNum (n : N).

Inductive lex_mode :=
| Idle
| InStr (acc : string)
| InNum (acc : N).

Definition digit (c : Ascii.ascii) : option N :=
  let n := Ascii.N_of_ascii c in
  if decide (48 ≤ n ∧ n ≤ 57)%N then Some (n - 48)%N else None.

Definition quote : Ascii.ascii := Ascii.ascii_of_nat 34.
Definition newline : Ascii.ascii := Ascii.ascii_of_nat 10.

Definition idle (c : Ascii.ascii) (k : lex_mode → option (list jtok))
  : option (list jtok) :=
  if decide (c = quote) then k (InStr "")
  else match digit c with
       | Some d => k (InNum d)
       | None =>
           if decide (c = "{"%char) then (TLBrace ::.) <$> k Idle
           else if decide (c = "}"%char) then (TRBrace ::.) <$> k Idle
           else if decide (c = ":"%char) then (TColon ::.) <$> k Idle
           else if decide (c = ","%char) then (TComma ::.) <$> k Idle
           else if Ascii.is_space c then k Idle
           else None
       end.

Fixpoint lex (s : string) (mode : lex_mode) : option (list jtok) :=
  match s with
  | EmptyString =>
      match mode with
      | Idle => Some []
      | InNum n => Some [TNum n]
      | InStr _ => None
      end
  | String c s' =>
      match mode with
      | InStr acc =>
          if decide (c = quote) then (TStr acc ::.) <$> lex s' Idle
          else lex s' (InStr (acc +:+ String c ""))
      | InNum n =>
          match digit c with
          | Some d => lex s' (InNum (10 * n + d)%N)
          | None => (TNum n ::.) <$> idle c (lex s')
          end
      | Idle => idle c (lex s')
      end
  end.

Fixpoint members (ts : list jtok) (obj : gmap string N) : option (gmap string N) :=
  match ts with
  | TStr k :: TColon :: TNum n :: TRBrace :: [] => Some (<[k:=n]> obj)
  | TStr k :: TColon :: TNum n :: TComma :: ts' => members ts' (<[k:=n]> obj)
  | _ => None
  end.

Definition object (ts : list jtok) (obj : gmap string N) : option (gmap string N) :=
  match ts with
  | [TLBrace; TRBrace] => Some obj
  | TLBrace :: ts' => members ts' obj
  | _ => None
  end.

Definition json_Unmarshal (body : string) (obj : gmap string N)
  : gmap string N * option error :=
  match lex body Idle ≫= λ ts, object ts obj with
  | Some obj' => (obj', None)
  | None => (obj, Some "json: cannot unmarshal into Go value of type map[string]interface {}")
  end.

Definition json_MarshalIndent (obj : gmap string N) (prefix indent : string)
  : Result string :=
  match map_to_list obj with
  | [] => Ok "{}"
  | kvs =>
      let member (kv : string * N) :=
        prefix +:+ indent +:+ String quote kv.1 +:+ String quote ": " +:+ pretty kv.2 in
      Ok ("{" +:+ nl +:+ String.concat ("," +:+ nl) (member <$> kvs)
              +:+ nl +:+ prefix +:+ "}")
  end.

Inductive yaml_mode :=
| YStart
| YKey (k : string)
| YColon (k : string)
| YVal (k : string) (n : N).

Fixpoint mapping (s : string) (mode : yaml_mode) (obj : gmap string N)
  : option (gmap string N) :=
  match s with
  | EmptyString =>
      match mode with
      | YStart => Some obj
      | YVal k n => Some (<[k:=n]> obj)
      | _ => None
      end
  | String c s' =>
      match mode with
      | YStart =>
          if decide (c = newline) then mapping s' YStart obj
          else if decide (c = ":"%char) then None
          else mapping s' (YKey (String c "")) obj
      | YKey k =>
          if decide (c = ":"%char) then mapping s' (YColon k) obj
          else if decide (c = newline) then None
          else mapping s' (YKey (k +:+ String c "")) obj
      | YColon k =>
          if decide (c = " "%char) then mapping s' (YColon k) obj
          else match digit c with
               | Some d => mapping s' (YVal k d) obj
               | None => None
               end
      | YVal k n =>
          if decide (c = newline) then mapping s' YStart (<[k:=n]> obj)
          else match digit c with
               | Some d => mapping s' (YVal k (10 * n + d)%N) obj
               | None => None
               end
      end
  end.

Definition yaml_Unmarshal (body : string) (obj : gmap string N)
  : gmap string N * option error :=
  if decide (body = "{}" +:+ nl) then (obj, None)
  else match mapping body YStart obj with
       | Some obj' => (obj', None)
       | None => (obj, Some "yaml: unmarshal errors: cannot unmarshal into map[string]interface {}")
       end.

Definition yaml_Marshal (obj : gmap string N) : Result string :=
  match map_to_list obj with
  | [] => Ok ("{}" +:+ nl)
  | kvs => Ok (String.concat "" ((λ kv : string * N, kv.1 +:+ ": " +:+ pretty kv.2 +:+ nl) <$> kvs))
  end.

Fixpoint trim_left_slash (s : string) : string :=
  match s with
  | EmptyString => s
  | String c s' => if decide (c = "/"%char) then trim_left_slash s' else s
  end.

Definition trim_right_slash (s : string) : string :=
  String.rev (trim_left_slash (String.rev s)).

(** Modelled from the spec: [utils.UrlJoin] is defined in the utils
    package outside StringUtil.go. The spec asks for a join that leaves
    exactly one separating slash, whatever slashes end the root or start
    the path. *)
Definition UrlJoin (base path : string) : string * option error :=
  (trim_right_slash base +:+ "/" +:+ trim_left_slash path, None).

Fixpoint skip_scheme (s : string) : string :=
  match s with
  | EmptyString => s
  | String c s' =>
      match s' with
      | String c' s'' =>
          if decide (c = "/"%char ∧ c' = "/"%char) then s'' else skip_scheme s'
      | EmptyString => s'
      end
  end.

Fixpoint until_slash (s : string) : string * string :=
  match s with
  | EmptyString => (s, s)
  | String c s' =>
      if decide (c = "/"%char) then (EmptyString, s)
      else let '(host, path) := until_slash s' in (String c host, path)
  end.

Fixpoint has_space (s : string) : bool :=
  match s with
  | EmptyString => false
  | String c s' => Ascii.is_space c || has_space s'
  end.

Definition http_NewRequest (method url : string) (body : option string)
  : Result Request :=
  if has_space method then Err ("net/http: invalid method " +:+ method)
  else
    let '(host, path) := until_slash (skip_scheme url) in
    let path := if nonempty path then path else "/" in
    Ok {| lr_Method := method;
          lr_URL := Some {| url_RequestURI := path; url_Path := path;
                            url_Host := host |};
          lr_Proto := "HTTP/1.1";
          lr_Header := ∅ |}.

Definition served_body : string :=
  "{" +:+ String quote "a" +:+ String quote ":1}".

(** A server that answers every request to a named host. *)
Definition httpClient_Do (r : Request) : option Response * option error :=
  match lr_URL r with
  | Some u =>
      if nonempty (url_Host u) then
        (Some {| lres_Proto := "HTTP/1.1";
                 lres_Status := "200 OK";
                 lres_StatusCode := 200;
                 lres_Header := {[ "Content-Type" := ["application/json"] ]};
                 lres_Body := Some (served_body, None) |}, None)
      else (None, Some "http: no Host in request URL")
  | None => (None, Some "http: nil Request.URL")
  end.

Definition yaml_Marshal_snapshot (r : GeneratedSnapshot) : Result string :=
  let case (tc : TestCase) :=
    "- title: " +:+ tc_Title tc +:+ nl +:+ "  version: " +:+ tc_Version tc +:+ nl in
  Ok ("testcase-snapshot:" +:+ nl +:+ String.concat "" (case <$> TestCases r)).

(** Even-numbered loops walk the map one way, odd-numbered ones the other. *)
Definition mapiter (n : nat) (m : Header) : list (string * list string) :=
  if Nat.even n then map_to_list m else reverse (map_to_list m).

Definition X : Externals :=
  Build_Externals (gmap string N) ∅
    json_Unmarshal json_MarshalIndent yaml_Unmarshal yaml_Marshal
    yaml_Marshal_snapshot UrlJoin http_NewRequest id httpClient_Do mapiter.

(** The same collaborators with a snapshot marshaller that always fails. *)
Definition X_unmarshallable : Externals :=
  Build_Externals (gmap string N) ∅
    json_Unmarshal json_MarshalIndent yaml_Unmarshal yaml_Marshal
    (λ _, Err "yaml: cannot marshal") UrlJoin http_NewRequest id
    httpClient_Do mapiter.

(** The same collaborators with encoders that always fail. *)
Definition X_unprintable : Externals :=
  Build_Externals (gmap string N) ∅
    json_Unmarshal (λ _ _ _, Err "json: unsupported value")
    yaml_Unmarshal (λ _, Err "yaml: unsupported value")
    yaml_Marshal_snapshot UrlJoin http_NewRequest id httpClient_Do mapiter.

Definition world0 : World := {| rng := 0; net := []; sinks := ∅ |}.

Definition generator0 : TestGenerator := {| gen_Version := "1.0.0" |}.

Definition response (code : Z) (h : Header) (body : string) : HttpResponse :=
  {| res_Status := ""; res_StatusCode := code; res_Version := "HTTP/1.1";
     res_Header := h; res_ContentLength := 0; res_Body := body |}.

Definition response_json : HttpResponse :=
  response 200
    {[ "Content-Type" := ["application/json"];
       "Set-Cookie" := ["a=1"; "b=2"];
       "Server" := ["ref"] ]}
    served_body.

Definition response_yaml : HttpResponse := response 200 ∅ ("a: 1" +:+ nl).

Definition response_text : HttpResponse := response 404 ∅ "plain text".

Definition response_empty : HttpResponse := response 404 ∅ "".

Fixpoint Map_from (number : Z) (lines : list string)
    (f : string → Z → string) : list string :=
  match lines with
  | [] => []
  | line :: rest => f line number :: Map_from (number + 1)%Z rest f
  end.

Definition Map (lines : list string) (f : string → Z → string) : list string :=
  Map_from 0 lines f.

End Ref.

(** ** Specification-side notions *)

(** An itemized header assertion: exact equality of one name's value. *)
Definition exact_item (name value : string) : MeasureHeader :=
  {| mh_Name := Some name; mh_IsEqualTo := Some value |}.

(** What one visited entry contributes to the itemized list. *)
Definition item_of (kv : string * list string) : option MeasureHeader :=
  match kv.2 with
  | [value] => Some (exact_item kv.1 value)
  | _ => None
  end.

(** Equality of expectations up to the order of the itemized headers. *)
Definition MeasureHeaders_equiv (h1 h2 : MeasureHeaders) : Prop :=
  hs_HasTotal h1 = hs_HasTotal h2 ∧ hs_Items h1 ≡ₚ hs_Items h2.

Definition Expectation_equiv (e1 e2 : Expectation) : Prop :=
  exp_StatusCode e1 = exp_StatusCode e2 ∧
  exp_Body e1 = exp_Body e2 ∧
  option_Forall2 MeasureHeaders_equiv (exp_Headers e1) (exp_Headers e2).


(** The world after [chunks] have been written to the sink [w]. *)
Definition written (w : Writer) (chunks : list string) (σ : World) : World :=
  {| rng := rng σ; net := net σ;
     sinks := <[w := default [] (sinks σ !! w) ++ chunks]> (sinks σ) |}.

(** The world after the steps of all of [l], in order. *)
Definition after_all {A} (step : A → M unit) (l : list A) (σ : World) : World :=
  foldl (λ σ a, (step a σ).2) σ l.

(** What the sink [w] has received so far. *)
Definition sink (σ : World) (w : Writer) : list string :=
  default [] (sinks σ !! w).

(** The line [generateTestCase] prints when the marshaller fails:
    [Fprintln] does not interpret the verb, it prints both operands. *)
Definition diagnostic (err : error) : string :=
  "Cannot marshal generated testcase, error: %s " +:+ err +:+ nl.

(** A computation that leaves the network log alone. *)
Definition keeps_net {A} (m : M A) : Prop :=
  ∀ σ, net (m σ).2 = net σ.

(** A computation that only ever appends to sinks. *)
Definition appends {A} (m : M A) : Prop :=
  ∀ σ w, sink σ w `prefix_of` sink (m σ).2 w.

(** The method and the body [Do] hands to [http.NewRequest] (lines 62-71). *)
Definition effective_method (req : HttpRequest) : string :=
  if decide (req_Method req = "") then "GET" else req_Method req.

Definition effective_body (req : HttpRequest) : option string :=
  if decide (req_Body req = "") then None else Some (req_Body req).

(** An interceptor with a sink to write to at some dispatch point. *)
Definition has_sink (i : Interceptor) : bool :=
  match as_ExplanationWriter i ≫= GetConsoleOut, as_SnapshotGenerator i ≫= GetTargetWriter with
  | None, None => false
  | _, _ => true
  end.

(** The sinks the dispatch loops can reach: console outputs and snapshot
    targets. *)
Definition dispatch_sinks (l : list Interceptor) : list Writer :=
  i ← l;
  option_list (as_ExplanationWriter i ≫= GetConsoleOut)
    ++ option_list (as_SnapshotGenerator i ≫= GetTargetWriter).



(** A computation that writes to no sink outside [P]. *)
Definition touches_only {A} (P : Writer → Prop) (m : M A) : Prop :=
  ∀ σ w, ¬ P w → sink (m σ).2 w = sink σ w.

(** A header the request builder keeps: name and value both non-empty. *)
Definition sendable (h : HttpHeader) : bool :=
  nonempty (hh_Name h) && nonempty (hh_Value h).

(** A part of a transcript line, with its separating space, if any. *)
Definition spaced (s : string) : string :=
  if decide (s = "") then "" else " " +:+ s.

(** One transcript line per header value. *)
Definition header_lines (mark : string) (entries : list (string * list string))
  : list string :=
  kv ← entries; (λ val, (mark +:+ kv.1 +:+ ": " +:+ val) +:+ nl) <$> kv.2.

(** The first line of a rendered response. *)
Definition status_line (res : HttpResponse) : string :=
  "<" +:+ spaced (res_Version res)
      +:+ " " +:+ (if decide (res_Status res = "") then pretty (res_StatusCode res)
                   else res_Status res)
      +:+ nl.

(** The first lines of a rendered request. *)
Definition request_target (req : Request) : string :=
  match lr_URL req with
  | Some u => if decide (url_RequestURI u = "") then url_Path u
              else url_RequestURI u
  | None => ""
  end.

Definition request_line (req : Request) : string :=
  ">" +:+ spaced (lr_Method req) +:+ spaced (request_target req)
      +:+ spaced (lr_Proto req) +:+ nl.

Definition host_line (req : Request) : list string :=
  match lr_URL req with
  | Some u => if decide (url_Host u = "") then []
              else ["> Host: " +:+ url_Host u +:+ nl]
  | None => []
  end.

Definition agent_line (X : Externals) (req : Request) : list string :=
  if decide (UserAgent X req = "") then []
  else ["> User-Agent: " +:+ UserAgent X req +:+ nl].

(** The string without its first [n] characters. *)
Fixpoint string_drop (n : nat) (s : string) : string :=
  match n, s with
  | O, _ => s
  | S n', String _ s' => string_drop n' s'
  | S _, EmptyString => EmptyString
  end.

(** [n] tabs. *)
Fixpoint tabs (n : nat) : string :=
  match n with
  | O => EmptyString
  | S n' => String tab (tabs n')
  end.

(** The characters of a string. *)
Fixpoint chars (s : string) : list ascii :=
  match s with
  | EmptyString => []
  | String c s' => c :: chars s'
  end.

(** * Properties *)

Lemma Ref_visits_once : mapiter_visits_once Ref.X.
Proof.
  intros n m. cbn. unfold Ref.mapiter.
  destruct (Nat.even n); [done | apply reverse_Permutation].
Qed.

Section Facts.
Context (X : Externals).

Lemma foldl_itemize items visited :
  foldl itemize items visited = items ++ omap item_of visited.
Proof.
  revert items. induction visited as [|[key vals] visited IH]; intros items.
  - by rewrite app_nil_r.
  - cbn [foldl]. rewrite IH. unfold itemize, item_of. cbn.
    destruct vals as [|value [|? ?]]; cbn; try done.
    by rewrite <- app_assoc.
Qed.

Lemma measureHeaders_eq h σ :
  measureHeaders X h σ =
  if decide (size h = 0) then (None, σ)
  else (Some {| hs_HasTotal := Some (Z.of_nat (size h));
                hs_Items := omap item_of (mapiter X (rng σ) h) |},
        {| rng := S (rng σ); net := net σ; sinks := sinks σ |}).
Proof.
  unfold measureHeaders. case_decide as Hsz.
  - rewrite Hsz. done.
  - destruct (Z.ltb_spec 0 (Z.of_nat (size h))); [|lia].
    unfold mbind, M_bind, range, mret, M_ret. cbn.
    by rewrite foldl_itemize.
Qed.

Lemma generateExpectation_some g res σ :
  generateExpectation X g (Some res) σ =
  (Some {| exp_StatusCode := Some {| sc_IsEqualTo := Some (res_StatusCode res) |};
           exp_Headers := (measureHeaders X (res_Header res) σ).1;
           exp_Body := Some (measureBody X (res_Body res)) |},
   (measureHeaders X (res_Header res) σ).2).
Proof.
  unfold generateExpectation, mbind, M_bind, mret, M_ret.
  by destruct (measureHeaders _ _ _).
Qed.

Lemma measureHeaders_world h σ :
  net (measureHeaders X h σ).2 = net σ ∧ sinks (measureHeaders X h σ).2 = sinks σ.
Proof. rewrite measureHeaders_eq. by case_decide. Qed.

Section Visits.
Hypothesis HX : mapiter_visits_once X.

Lemma elem_of_visited h n name vals :
  (name, vals) ∈ mapiter X n h ↔ h !! name = Some vals.
Proof. rewrite (HX n h). apply elem_of_map_to_list. Qed.

Lemma elem_of_items h n item :
  item ∈ omap item_of (mapiter X n h) ↔
  ∃ name value, item = exact_item name value ∧ h !! name = Some [value].
Proof.
  rewrite list_elem_of_omap. split.
  - intros ([name vals] & Hin & Hitem). apply elem_of_visited in Hin.
    unfold item_of in Hitem. cbn in Hitem.
    destruct vals as [|value [|? ?]]; simplify_eq. eauto.
  - intros (name & value & -> & Hlook). exists (name, [value]).
    split; [by apply elem_of_visited | done].
Qed.

Lemma NoDup_items h n : NoDup (omap item_of (mapiter X n h)).
Proof.
  assert (Hkeys : NoDup (mapiter X n h).*1).
  { rewrite (HX n h). apply NoDup_fst_map_to_list. }
  induction (mapiter X n h) as [|[name vals] l IH]; cbn; [constructor|].
  apply NoDup_cons in Hkeys as [Hnotin Hkeys]. cbn in Hnotin.
  unfold item_of at 1. cbn.
  destruct vals as [|value [|? ?]]; cbn; auto.
  constructor; [|auto].
  rewrite list_elem_of_omap. intros ([name' vals'] & Hin & Hitem).
  unfold item_of in Hitem. cbn in Hitem.
  destruct vals' as [|value' [|? ?]]; simplify_eq.
  apply Hnotin. apply list_elem_of_fmap. by exists (name, [value]).
Qed.

Lemma items_permutation h n1 n2 :
  omap item_of (mapiter X n1 h) ≡ₚ omap item_of (mapiter X n2 h).
Proof. by rewrite (HX n1 h), (HX n2 h). Qed.

End Visits.
End Facts.

(** *** Status code *)

(** C7. For every non-nil captured response the synthesized expectation
    carries a status-code assertion, and its exact-equality value is the
    numeric status code of the response. *)
Theorem C7_status_code_always_asserted
    (X : Externals) (g : TestGenerator) (res : HttpResponse) (σ : World) :
  ∃ e, (generateExpectation X g (Some res) σ).1 = Some e ∧
       exp_StatusCode e = Some {| sc_IsEqualTo := Some (res_StatusCode res) |}.
Proof. rewrite generateExpectation_some. eauto. Qed.

(** *** Headers *)

(** C2. When the response has no header name there is no headers
    assertion. Otherwise the assertion is present, [HasTotal] is the number
    of distinct header names, the itemized list holds the exact-equality
    pair (name, value) exactly for the names that carry the single value
    [value], it holds nothing else and nothing twice, and a name with two
    or more values is named by no item. *)
Theorem C2_headers_total_and_items
    (X : Externals) (HX : mapiter_visits_once X)
    (g : TestGenerator) (res : HttpResponse) (σ : World) :
  ∃ e, (generateExpectation X g (Some res) σ).1 = Some e ∧
    match exp_Headers e with
    | None => dom (res_Header res) = ∅
    | Some hs =>
        dom (res_Header res) ≠ ∅ ∧
        hs_HasTotal hs = Some (Z.of_nat (size (dom (res_Header res)))) ∧
        (∀ name value,
            exact_item name value ∈ hs_Items hs ↔
            res_Header res !! name = Some [value]) ∧
        (∀ item, item ∈ hs_Items hs →
            ∃ name value, item = exact_item name value) ∧
        (∀ name vals item,
            res_Header res !! name = Some vals → 2 ≤ length vals →
            item ∈ hs_Items hs → mh_Name item ≠ Some name) ∧
        NoDup (hs_Items hs)
    end.
Proof.
  rewrite generateExpectation_some. eexists; split; [done|]. cbn.
  rewrite measureHeaders_eq, <- size_dom. case_decide as Hsz; cbn.
  - by apply size_empty_inv, leibniz_equiv in Hsz.
  - split; [intros Hempty; by rewrite Hempty, size_empty in Hsz|]. split; [done|].
    split; [|split; [|split]].
    + intros name value. rewrite (elem_of_items X HX). split.
      * by intros (? & ? & [= <- <-] & ?).
      * eauto.
    + intros item (name & value & -> & _)%(elem_of_items X HX). eauto.
    + intros name vals item Hlook Hlen
        (name' & value & -> & Hlook')%(elem_of_items X HX) [= ->].
      rewrite Hlook in Hlook'. simplify_eq. cbn in Hlen. lia.
    + by apply NoDup_items.
Qed.

Lemma C2_headers_total_and_items_witness :
  mapiter_visits_once Ref.X ∧
  ∃ e, (generateExpectation Ref.X Ref.generator0
          (Some Ref.response_json) Ref.world0).1 = Some e ∧
    match exp_Headers e with
    | None => dom (res_Header Ref.response_json) = ∅
    | Some hs =>
        dom (res_Header Ref.response_json) ≠ ∅ ∧
        hs_HasTotal hs
          = Some (Z.of_nat (size (dom (res_Header Ref.response_json)))) ∧
        (∀ name value,
            exact_item name value ∈ hs_Items hs ↔
            res_Header Ref.response_json !! name = Some [value]) ∧
        (∀ item, item ∈ hs_Items hs →
            ∃ name value, item = exact_item name value) ∧
        (∀ name vals item,
            res_Header Ref.response_json !! name = Some vals →
            2 ≤ length vals →
            item ∈ hs_Items hs → mh_Name item ≠ Some name) ∧
        NoDup (hs_Items hs)
    end.
Proof.
  split.
  - exact Ref_visits_once.
  - exact (C2_headers_total_and_items Ref.X Ref_visits_once Ref.generator0
             Ref.response_json Ref.world0).
Defined.

(** The spec's scenario on the reference collaborators: three names, one
    of them with two values. *)
Example headers_of_response_json :
  (generateExpectation Ref.X Ref.generator0
     (Some Ref.response_json) Ref.world0).1
    ≫= exp_Headers
  = Some {| hs_HasTotal := Some 3%Z;
            hs_Items := [exact_item "Server" "ref";
                         exact_item "Content-Type" "application/json"] |}.
Proof. vm_compute. reflexivity. Qed.

(** *** Determinism and purity of the synthesis *)

(** C8, as stated, fails: two successive syntheses of one response, on a
    runtime that visits every map entry exactly once, yield different
    itemized lists. *)
Lemma C8_item_order_counterexample :
  mapiter_visits_once Ref.X ∧
  let first :=
    generateExpectation Ref.X Ref.generator0 (Some Ref.response_json) Ref.world0 in
  let second :=
    generateExpectation Ref.X Ref.generator0 (Some Ref.response_json) first.2 in
  first.1 ≠ second.1.
Proof.
  split; [exact Ref_visits_once|].
  vm_compute. intros [=].
Qed.

(** C8, amended. Two syntheses of one response, in whatever worlds, agree
    on the status-code assertion, on the body assertion, on the presence of
    the headers assertion and its total, and their itemized lists are
    permutations of each other; a synthesis leaves the network log and
    every sink as it found them. *)
Theorem C8_synthesis_pure_up_to_item_order
    (X : Externals) (HX : mapiter_visits_once X)
    (g : TestGenerator) (res : option HttpResponse) (σ1 σ2 : World) :
  option_Forall2 Expectation_equiv
    (generateExpectation X g res σ1).1 (generateExpectation X g res σ2).1 ∧
  net (generateExpectation X g res σ1).2 = net σ1 ∧
  sinks (generateExpectation X g res σ1).2 = sinks σ1.
Proof.
  destruct res as [res|]; [|by repeat constructor].
  rewrite !generateExpectation_some. cbn.
  split; [|apply measureHeaders_world].
  constructor. repeat split; cbn.
  rewrite !measureHeaders_eq. case_decide; cbn; constructor.
  split; cbn; [done|]. by apply items_permutation.
Qed.

Lemma C8_synthesis_pure_up_to_item_order_witness :
  mapiter_visits_once Ref.X ∧
  let first :=
    generateExpectation Ref.X Ref.generator0 (Some Ref.response_json) Ref.world0 in
  let second :=
    generateExpectation Ref.X Ref.generator0 (Some Ref.response_json) first.2 in
  option_Forall2 Expectation_equiv first.1 second.1 ∧
  net first.2 = net Ref.world0 ∧
  sinks first.2 = sinks Ref.world0.
Proof.
  split.
  - exact Ref_visits_once.
  - exact (C8_synthesis_pure_up_to_item_order Ref.X Ref_visits_once
             Ref.generator0 (Some Ref.response_json) Ref.world0
             (generateExpectation Ref.X Ref.generator0
                (Some Ref.response_json) Ref.world0).2).
Defined.

(** *** Body *)

Section Body.
Context (X : Externals).

Lemma measureBody_json body obj :
  json_Unmarshal X body (make_map X) = (obj, None) →
  measureBody X body =
  {| mb_HasFormat := Some "json";
     mb_Includes := Some match json_MarshalIndent X obj "" "  " with
                         | Ok out => out
                         | Err _ => body
                         end;
     mb_IsEqualTo := None;
     mb_MatchWith := None |}.
Proof. intros Hjson. unfold measureBody, try_json. cbn. by rewrite Hjson. Qed.

Lemma measureBody_yaml body obj1 err obj2 :
  json_Unmarshal X body (make_map X) = (obj1, Some err) →
  yaml_Unmarshal X body obj1 = (obj2, None) →
  measureBody X body =
  {| mb_HasFormat := Some "yaml";
     mb_Includes := Some match yaml_Marshal X obj2 with
                         | Ok out => out
                         | Err _ => body
                         end;
     mb_IsEqualTo := None;
     mb_MatchWith := None |}.
Proof.
  intros Hjson Hyaml. unfold measureBody, try_json, try_yaml. cbn.
  rewrite Hjson. cbn. by rewrite Hyaml.
Qed.

Lemma measureBody_flat body obj1 err1 obj2 err2 :
  json_Unmarshal X body (make_map X) = (obj1, Some err1) →
  yaml_Unmarshal X body obj1 = (obj2, Some err2) →
  measureBody X body =
  {| mb_HasFormat := Some "flat";
     mb_Includes := None;
     mb_IsEqualTo := Some body;
     mb_MatchWith := Some ".*" |}.
Proof.
  intros Hjson Hyaml. unfold measureBody, try_json, try_yaml. cbn.
  rewrite Hjson. cbn. by rewrite Hyaml.
Qed.

(** The tag is [flat] only if both decoders reported an error. *)
Lemma measureBody_flat_only_if_rejected body :
  mb_HasFormat (measureBody X body) = Some "flat" →
  (json_Unmarshal X body (make_map X)).2 ≠ None ∧
  (yaml_Unmarshal X body (json_Unmarshal X body (make_map X)).1).2 ≠ None.
Proof.
  destruct (json_Unmarshal X body (make_map X)) as [obj1 [err1|]] eqn:Hjson.
  - destruct (yaml_Unmarshal X body obj1) as [obj2 [err2|]] eqn:Hyaml.
    + cbn. by rewrite Hyaml.
    + by rewrite (measureBody_yaml _ _ _ _ Hjson Hyaml).
  - by rewrite (measureBody_json _ _ Hjson).
Qed.

End Body.


(** C1, as stated, fails on the empty body: the JSON decoder rejects it,
    and a YAML decoder that accepts the empty document (as the one of
    yaml.v2 does) makes the synthesis tag it [yaml], with the
    re-serialized empty mapping as snippet and no exact value. *)
Lemma C1_empty_body_counterexample :
  res_Body Ref.response_empty = "" ∧
  (json_Unmarshal Ref.X "" (make_map Ref.X)).2 ≠ None ∧
  ∃ e, (generateExpectation Ref.X Ref.generator0
          (Some Ref.response_empty) Ref.world0).1 = Some e ∧
       exp_Body e = Some {| mb_HasFormat := Some "yaml";
                            mb_Includes := Some ("{}" +:+ nl);
                            mb_IsEqualTo := None;
                            mb_MatchWith := None |} ∧
       exp_Body e ≠ Some {| mb_HasFormat := Some "flat";
                            mb_Includes := None;
                            mb_IsEqualTo := Some "";
                            mb_MatchWith := Some ".*" |}.
Proof.
  split; [reflexivity|]. split; [by vm_compute|].
  eexists. split; [vm_compute; reflexivity|].
  split; [reflexivity | intros [=]].
Qed.

(** C1, amended. For every response body on which both decoders report an
    error, the empty body included when that is the case, the body
    assertion has the tag [flat], the raw body text as exact value, [.*]
    as match pattern and no snippet. *)
Theorem C1_rejected_body_is_flat
    (X : Externals) (g : TestGenerator) (res : HttpResponse) (σ : World)
    (Hjson : (json_Unmarshal X (res_Body res) (make_map X)).2 ≠ None)
    (Hyaml : (yaml_Unmarshal X (res_Body res)
                (json_Unmarshal X (res_Body res) (make_map X)).1).2 ≠ None) :
  ∃ e, (generateExpectation X g (Some res) σ).1 = Some e ∧
       exp_Body e = Some {| mb_HasFormat := Some "flat";
                            mb_Includes := None;
                            mb_IsEqualTo := Some (res_Body res);
                            mb_MatchWith := Some ".*" |}.
Proof.
  rewrite generateExpectation_some. eexists; split; [done|]. cbn. f_equal.
  destruct (json_Unmarshal X (res_Body res) (make_map X))
    as [obj1 [err1|]] eqn:Ej; [|done].
  destruct (yaml_Unmarshal X (res_Body res) obj1) as [obj2 [err2|]] eqn:Ey.
  - eapply measureBody_flat; eauto.
  - cbn in Hyaml. by rewrite Ey in Hyaml.
Qed.

Lemma C1_rejected_body_is_flat_witness :
  (json_Unmarshal Ref.X (res_Body Ref.response_text) (make_map Ref.X)).2 ≠ None ∧
  (yaml_Unmarshal Ref.X (res_Body Ref.response_text)
     (json_Unmarshal Ref.X (res_Body Ref.response_text) (make_map Ref.X)).1).2
    ≠ None ∧
  ∃ e, (generateExpectation Ref.X Ref.generator0
          (Some Ref.response_text) Ref.world0).1 = Some e ∧
       exp_Body e = Some {| mb_HasFormat := Some "flat";
                            mb_Includes := None;
                            mb_IsEqualTo := Some (res_Body Ref.response_text);
                            mb_MatchWith := Some ".*" |}.
Proof.
  assert (Hjson : (json_Unmarshal Ref.X (res_Body Ref.response_text)
                     (make_map Ref.X)).2 ≠ None) by (vm_compute; discriminate).
  assert (Hyaml : (yaml_Unmarshal Ref.X (res_Body Ref.response_text)
                     (json_Unmarshal Ref.X (res_Body Ref.response_text)
                        (make_map Ref.X)).1).2 ≠ None)
    by (vm_compute; discriminate).
  split; [exact Hjson|]. split; [exact Hyaml|].
  exact (C1_rejected_body_is_flat Ref.X Ref.generator0 Ref.response_text
           Ref.world0 Hjson Hyaml).
Defined.





(** *** Frame properties of the monadic code *)

Lemma bind_run {A B} (m : M A) (k : A → M B) σ :
  (m ≫= k) σ = k (m σ).1 (m σ).2.
Proof. unfold mbind, M_bind. by destruct (m σ). Qed.

Lemma forM_after_all {A} (body : A → M unit) l σ :
  (forM_ l body σ).2 = after_all body l σ.
Proof.
  revert σ. induction l as [|a l IH]; intros σ; [done|].
  cbn [forM_]. rewrite bind_run. apply IH.
Qed.


Lemma keeps_net_ret {A} (a : A) : keeps_net (mret a).
Proof. done. Qed.

Lemma keeps_net_bind {A B} (m : M A) (k : A → M B) :
  keeps_net m → (∀ a, keeps_net (k a)) → keeps_net (m ≫= k).
Proof. intros Hm Hk σ. rewrite bind_run, Hk. apply Hm. Qed.

Lemma keeps_net_forM {A} (body : A → M unit) l :
  (∀ a, keeps_net (body a)) → keeps_net (forM_ l body).
Proof.
  intros Hbody. induction l; [apply keeps_net_ret|].
  apply keeps_net_bind; auto.
Qed.

Lemma keeps_net_Fprintln w operands : keeps_net (Fprintln w operands).
Proof. done. Qed.

Lemma keeps_net_range X h : keeps_net (range X h).
Proof. done. Qed.

Lemma appends_ret {A} (a : A) : appends (mret a).
Proof. intros σ w. reflexivity. Qed.

Lemma appends_bind {A B} (m : M A) (k : A → M B) :
  appends m → (∀ a, appends (k a)) → appends (m ≫= k).
Proof.
  intros Hm Hk σ w. rewrite bind_run. etrans; [apply Hm | apply Hk].
Qed.

Lemma appends_forM {A} (body : A → M unit) l :
  (∀ a, appends (body a)) → appends (forM_ l body).
Proof.
  intros Hbody. induction l; [apply appends_ret|].
  apply appends_bind; auto.
Qed.

Lemma sink_written w chunks σ w' :
  sink (written w chunks σ) w' =
  if decide (w = w') then sink σ w ++ chunks else sink σ w'.
Proof.
  unfold sink, written. cbn. case_decide as Hw.
  - subst. by rewrite lookup_insert_eq.
  - by rewrite lookup_insert_ne.
Qed.

Lemma Fprintln_written w operands σ :
  Fprintln w operands σ = ((), written w [String.concat " " operands +:+ nl] σ).
Proof. done. Qed.

Lemma written_written w l1 l2 σ :
  written w l2 (written w l1 σ) = written w (l1 ++ l2) σ.
Proof.
  unfold written. cbn. f_equal.
  rewrite lookup_insert_eq, insert_insert_eq. cbn. by rewrite <- app_assoc.
Qed.

Lemma appends_Fprintln w operands : appends (Fprintln w operands).
Proof.
  intros σ w'. rewrite Fprintln_written. cbn. rewrite sink_written.
  case_decide; [subst; by eexists | reflexivity].
Qed.

Lemma appends_range X h : appends (range X h).
Proof. intros σ w. reflexivity. Qed.

Lemma appends_emit ev : appends (emit ev).
Proof. intros σ w. reflexivity. Qed.

Create HintDb frame.
#[local] Hint Resolve keeps_net_ret keeps_net_bind keeps_net_forM
  keeps_net_Fprintln keeps_net_range : frame.
#[local] Hint Resolve appends_ret appends_bind appends_forM
  appends_Fprintln appends_range appends_emit : frame.

Ltac frame :=
  repeat first
    [ progress intros
    | match goal with H : _ |- _ => solve [apply H] end
    | apply keeps_net_bind | apply keeps_net_forM
    | apply appends_bind | apply appends_forM
    | match goal with
      | |- context [match ?x with _ => _ end] => destruct x
      end
    | solve [auto with frame] ].

Section Frames.
Context (X : Externals).


Lemma appends_renderHeaders w mark h : appends (renderHeaders X w mark h).
Proof. unfold renderHeaders. frame. Qed.


Lemma appends_renderRequest w req : appends (renderRequest X w req).
Proof. unfold renderRequest. pose proof appends_renderHeaders. frame. Qed.








Lemma appends_preStep lowReq i : appends (preStep X lowReq i).
Proof. unfold preStep. pose proof appends_renderRequest. frame. Qed.



End Frames.

(** *** Snapshot serialization *)

Section Serializer.
Context (X : Externals).

(** The one-element document [generateTestCase] hands to the marshaller. *)
Lemma generateTestCase_run g w req res σ :
  generateTestCase X g w req res σ =
  let synthesis := generateExpectation X g res σ in
  match yaml_Marshal_snapshot X
          {| TestCases := [ {| tc_Title := "<Generated testcase>";
                               tc_Version := gen_Version g;
                               tc_Request := req;
                               tc_Expectation := synthesis.1 |} ] |} with
  | Ok script => (None, written w [nl; script +:+ nl] synthesis.2)
  | Err err => (Some err, written w [diagnostic err] synthesis.2)
  end.
Proof.
  unfold generateTestCase. rewrite bind_run. cbn zeta.
  destruct (yaml_Marshal_snapshot X _) as [script|err].
  - rewrite !bind_run, !Fprintln_written. cbn [fst snd].
    by rewrite written_written.
  - rewrite bind_run, Fprintln_written. done.
Qed.


End Serializer.

(** C6. The serializer marshals the snapshot made of exactly one test
    case, whose title is [<Generated testcase>], whose version is the
    generator's, whose request is the given one and whose expectation is the
    synthesized one. If marshalling fails with [err], the sink receives the
    diagnostic line and [err] is returned; otherwise the sink receives an
    empty line and the document, and no error is returned. *)
Theorem C6_snapshot_serialization
    (X : Externals) (g : TestGenerator) (w : Writer)
    (req : option HttpRequest) (res : option HttpResponse) (σ : World) :
  let synthesis := generateExpectation X g res σ in
  let snapshot :=
    {| TestCases := [ {| tc_Title := "<Generated testcase>";
                         tc_Version := gen_Version g;
                         tc_Request := req;
                         tc_Expectation := synthesis.1 |} ] |} in
  match yaml_Marshal_snapshot X snapshot with
  | Ok script =>
      generateTestCase X g w req res σ
      = (None, written w [nl; script +:+ nl] synthesis.2)
  | Err err =>
      generateTestCase X g w req res σ
      = (Some err, written w [diagnostic err] synthesis.2)
  end.
Proof.
  intros synthesis snapshot. rewrite generateTestCase_run. cbn zeta.
  fold synthesis. fold snapshot. by destruct (yaml_Marshal_snapshot X snapshot).
Qed.

(** *** The invoker *)

(** C9. With a nil request [Do] returns no response and an error, and the
    world is as before: no loop over a map has run, nothing was sent,
    no sink was written; the answer does not depend on any collaborator. *)
Theorem C9_nil_request_does_nothing
    (X : Externals) (c : HttpInvoker) (interceptors : list Interceptor)
    (σ : World) :
  Do X c None interceptors σ
  = (Returned (None, Some "Request must not be nil"), σ).
Proof. reflexivity. Qed.

Lemma nonempty_decide {A} (s : string) (a b : A) :
  (if nonempty s then a else b) = (if decide (s = "") then b else a).
Proof. by destruct s. Qed.

Section Invoker.
Context (X : Externals).

Lemma resolveUrl_eq c req :
  resolveUrl X c req =
  if decide (req_Url req = "") then
    (UrlJoin X (if decide (req_PDP req = "") then pdp c else req_PDP req)
               (if decide (req_Path req = "") then "/$" else req_Path req)).1
  else req_Url req.
Proof. unfold resolveUrl. by rewrite !nonempty_decide. Qed.



(** [Do] up to the answer of the transport. *)
Lemma Do_run c req interceptors σ :
  Do X c (Some req) interceptors σ =
  match http_NewRequest X (effective_method req) (resolveUrl X c req)
          (effective_body req) with
  | Err err => (Returned (None, Some err), σ)
  | Ok lowReq =>
      let sent := addHeaders X lowReq (req_Headers req) in
      let σ1 := (emit (EvSend sent) (after_all (preStep X sent) interceptors σ)).2 in
      match httpClient_Do X sent with
      | (Some lowRes, Some err) =>
          (Returned (None, Some err),
           if lres_Body lowRes is Some _ then (emit EvClose σ1).2 else σ1)
      | (None, Some err) => (Returned (None, Some err), σ1)
      | (None, None) => (Panicked, σ1)
      | (Some lowRes, None) =>
          match lres_Body lowRes with
          | None => (Panicked, σ1)
          | Some (data, Some err) =>
              (Returned (None, Some err), (emit EvClose σ1).2)
          | Some (data, None) =>
              (Returned (Some (capture lowRes data), None),
               (emit EvClose
                  (after_all (postStep X c req (capture lowRes data))
                     interceptors σ1)).2)
          end
      end
  end.
Proof.
  unfold Do, effective_method, effective_body. rewrite <- !nonempty_decide.
  destruct (http_NewRequest X _ _ _) as [lowReq|err]; [|done].
  rewrite !bind_run, forM_after_all. cbn zeta.
  destruct (httpClient_Do X _) as [[lowRes|] [err|]]; try done.
  - rewrite bind_run. by destruct (lres_Body lowRes).
  - destruct (lres_Body lowRes) as [[data [err|]]|] eqn:Hbody; try done.
    unfold postProcess. by rewrite !bind_run, forM_after_all.
Qed.


Lemma after_all_cons {A} (step : A → M unit) a l σ :
  after_all step (a :: l) σ = after_all step l (step a σ).2.
Proof. done. Qed.


End Invoker.





(** On the failing marshaller both snapshot sinks end with the diagnostic
    line, and the call still answers with the response. *)
Example Do_with_failing_marshaller :
  let c := {| pdp := DEFAULT_PDP; generator := Ref.generator0 |} in
  let req := {| req_Method := ""; req_Url := ""; req_PDP := "";
                req_Path := "/orders"; req_Headers := []; req_Body := "" |} in
  let interceptors :=
    [ {| as_ExplanationWriter := None;
         as_SnapshotGenerator := Some {| GetTargetWriter := Some 3 |} |};
      {| as_ExplanationWriter := None;
         as_SnapshotGenerator := Some {| GetTargetWriter := Some 4 |} |} ] in
  let run := Do Ref.X_unmarshallable c (Some req) interceptors Ref.world0 in
  (∃ res, run.1 = Returned (Some res, None)) ∧
  sink run.2 3 = [diagnostic "yaml: cannot marshal"] ∧
  sink run.2 4 = [diagnostic "yaml: cannot marshal"].
Proof. split; [eexists|split]; vm_compute; reflexivity. Qed.

(** * Further properties of the invoker *)

(** *** Shape of the body assertion *)

(** X1. The body assertion is always present and has one of two shapes: a
    [json] or [yaml] tag with a snippet and neither exact value nor
    pattern, or the [flat] tag with the raw body as exact value, the
    pattern [.*] and no snippet. *)
Theorem body_assertion_shape
    (X : Externals) (g : TestGenerator) (res : HttpResponse) (σ : World) :
  ∃ e b,
    (generateExpectation X g (Some res) σ).1 = Some e ∧
    exp_Body e = Some b ∧
    (((mb_HasFormat b = Some "json" ∨ mb_HasFormat b = Some "yaml") ∧
      is_Some (mb_Includes b) ∧ mb_IsEqualTo b = None ∧ mb_MatchWith b = None)
     ∨ b = {| mb_HasFormat := Some "flat"; mb_Includes := None;
              mb_IsEqualTo := Some (res_Body res);
              mb_MatchWith := Some ".*" |}).
Proof.
  rewrite generateExpectation_some. do 2 eexists. split; [done|]. split; [done|].
  destruct (json_Unmarshal X (res_Body res) (make_map X))
    as [obj1 [err1|]] eqn:Hjson.
  - destruct (yaml_Unmarshal X (res_Body res) obj1) as [obj2 [err2|]] eqn:Hyaml.
    + right. by eapply measureBody_flat.
    + left. rewrite (measureBody_yaml X _ _ _ _ Hjson Hyaml). cbn. eauto 6.
  - left. rewrite (measureBody_json X _ _ Hjson). cbn. eauto 6.
Qed.

(** X2. When the JSON decoder accepts the body but the re-serialization of the
    decoded object fails, the body assertion keeps the [json] tag and its
    snippet is the raw body text. *)
Theorem json_snippet_falls_back_to_raw_body
    (X : Externals) (g : TestGenerator) (res : HttpResponse) (σ : World)
    (obj : Obj X) (err : error)
    (Hparse : json_Unmarshal X (res_Body res) (make_map X) = (obj, None))
    (Hprint : json_MarshalIndent X obj "" "  " = Err err) :
  ∃ e, (generateExpectation X g (Some res) σ).1 = Some e ∧
       exp_Body e = Some {| mb_HasFormat := Some "json";
                            mb_Includes := Some (res_Body res);
                            mb_IsEqualTo := None;
                            mb_MatchWith := None |}.
Proof.
  rewrite generateExpectation_some. eexists. split; [done|]. cbn.
  by rewrite (measureBody_json X _ _ Hparse), Hprint.
Qed.

Lemma json_snippet_falls_back_to_raw_body_witness :
  let obj : Obj Ref.X_unprintable := {[ "a" := 1%N ]} in
  json_Unmarshal Ref.X_unprintable (res_Body Ref.response_json)
    (make_map Ref.X_unprintable) = (obj, None) ∧
  json_MarshalIndent Ref.X_unprintable obj "" "  "
    = Err "json: unsupported value" ∧
  ∃ e, (generateExpectation Ref.X_unprintable Ref.generator0
          (Some Ref.response_json) Ref.world0).1 = Some e ∧
       exp_Body e = Some {| mb_HasFormat := Some "json";
                            mb_Includes := Some (res_Body Ref.response_json);
                            mb_IsEqualTo := None;
                            mb_MatchWith := None |}.
Proof.
  intros obj.
  assert (Hparse : json_Unmarshal Ref.X_unprintable (res_Body Ref.response_json)
                     (make_map Ref.X_unprintable) = (obj, None))
    by (vm_compute; reflexivity).
  assert (Hprint : json_MarshalIndent Ref.X_unprintable obj "" "  "
                   = Err "json: unsupported value") by reflexivity.
  split; [exact Hparse|]. split; [exact Hprint|].
  exact (json_snippet_falls_back_to_raw_body Ref.X_unprintable Ref.generator0
           Ref.response_json Ref.world0 obj _ Hparse Hprint).
Defined.

(** X3. When the JSON decoder rejects the body, the YAML decoder accepts it
    and the re-serialization of the mapping fails, the body assertion
    keeps the [yaml] tag and its snippet is the raw body text. *)
Theorem yaml_snippet_falls_back_to_raw_body
    (X : Externals) (g : TestGenerator) (res : HttpResponse) (σ : World)
    (obj1 obj2 : Obj X) (err1 err2 : error)
    (Hjson : json_Unmarshal X (res_Body res) (make_map X) = (obj1, Some err1))
    (Hparse : yaml_Unmarshal X (res_Body res) obj1 = (obj2, None))
    (Hprint : yaml_Marshal X obj2 = Err err2) :
  ∃ e, (generateExpectation X g (Some res) σ).1 = Some e ∧
       exp_Body e = Some {| mb_HasFormat := Some "yaml";
                            mb_Includes := Some (res_Body res);
                            mb_IsEqualTo := None;
                            mb_MatchWith := None |}.
Proof.
  rewrite generateExpectation_some. eexists. split; [done|]. cbn.
  by rewrite (measureBody_yaml X _ _ _ _ Hjson Hparse), Hprint.
Qed.

Lemma yaml_snippet_falls_back_to_raw_body_witness :
  let obj1 : Obj Ref.X_unprintable := ∅ in
  let obj2 : Obj Ref.X_unprintable := {[ "a" := 1%N ]} in
  let err1 := "json: cannot unmarshal into Go value of type map[string]interface {}" in
  json_Unmarshal Ref.X_unprintable (res_Body Ref.response_yaml)
    (make_map Ref.X_unprintable) = (obj1, Some err1) ∧
  yaml_Unmarshal Ref.X_unprintable (res_Body Ref.response_yaml) obj1
    = (obj2, None) ∧
  yaml_Marshal Ref.X_unprintable obj2 = Err "yaml: unsupported value" ∧
  ∃ e, (generateExpectation Ref.X_unprintable Ref.generator0
          (Some Ref.response_yaml) Ref.world0).1 = Some e ∧
       exp_Body e = Some {| mb_HasFormat := Some "yaml";
                            mb_Includes := Some (res_Body Ref.response_yaml);
                            mb_IsEqualTo := None;
                            mb_MatchWith := None |}.
Proof.
  intros obj1 obj2 err1.
  assert (Hjson : json_Unmarshal Ref.X_unprintable (res_Body Ref.response_yaml)
                    (make_map Ref.X_unprintable) = (obj1, Some err1))
    by (vm_compute; reflexivity).
  assert (Hparse : yaml_Unmarshal Ref.X_unprintable (res_Body Ref.response_yaml)
                     obj1 = (obj2, None)) by (vm_compute; reflexivity).
  assert (Hprint : yaml_Marshal Ref.X_unprintable obj2
                   = Err "yaml: unsupported value") by reflexivity.
  split; [exact Hjson|]. split; [exact Hparse|]. split; [exact Hprint|].
  exact (yaml_snippet_falls_back_to_raw_body Ref.X_unprintable Ref.generator0
           Ref.response_yaml Ref.world0 obj1 obj2 err1 _ Hjson Hparse Hprint).
Defined.

(** *** Size of the itemized header list *)

Lemma length_omap_le {A B} (f : A → option B) (l : list A) :
  length (omap f l) ≤ length l ∧
  (length (omap f l) = length l ↔ Forall (λ a, is_Some (f a)) l).
Proof.
  induction l as [|a l [IHle IHeq]]; cbn.
  - split; [lia|]. split; [constructor|done].
  - destruct (f a) as [b|] eqn:Hfa; cbn.
    + split; [lia|]. rewrite Forall_cons, <- IHeq, Hfa.
      split; [intros [=]; eauto | intros [_ ->]; done].
    + split; [lia|]. rewrite Forall_cons, Hfa. split; [lia|].
      intros [[? [=]] _].
Qed.

Lemma is_Some_item_of (kv : string * list string) :
  is_Some (item_of kv) ↔ length kv.2 = 1.
Proof.
  unfold item_of. destruct kv as [name [|value [|? ?]]]; cbn.
  - split; [intros [? [=]] | intros [=]].
  - split; [done | eauto].
  - split; [intros [? [=]] | intros [=]].
Qed.

(** X4. The itemized list is never longer than the total, and it is as long as
    the total exactly when every header name carries exactly one value. *)
Theorem itemized_headers_count
    (X : Externals) (HX : mapiter_visits_once X)
    (g : TestGenerator) (res : HttpResponse) (σ : World) :
  ∃ e, (generateExpectation X g (Some res) σ).1 = Some e ∧
    ∀ hs, exp_Headers e = Some hs →
      hs_HasTotal hs = Some (Z.of_nat (size (res_Header res))) ∧
      length (hs_Items hs) ≤ size (res_Header res) ∧
      (length (hs_Items hs) = size (res_Header res) ↔
       ∀ name vals, res_Header res !! name = Some vals → length vals = 1).
Proof.
  rewrite generateExpectation_some. eexists. split; [done|]. cbn.
  rewrite measureHeaders_eq. case_decide; cbn; [done|].
  intros hs [= <-]. cbn. split; [done|].
  destruct (length_omap_le item_of (mapiter X (rng σ) (res_Header res)))
    as [Hle Heq].
  assert (Hlen : length (mapiter X (rng σ) (res_Header res))
                 = size (res_Header res)).
  { by rewrite (HX _ _), length_map_to_list. }
  rewrite Hlen in Hle, Heq. split; [done|]. rewrite Heq, Forall_forall.
  split.
  - intros Hall name vals Hlook.
    apply (is_Some_item_of (name, vals)), Hall. by apply elem_of_visited.
  - intros Hall [name vals] Hin. apply is_Some_item_of.
    apply (elem_of_visited X HX) in Hin. by apply (Hall name).
Qed.

Lemma itemized_headers_count_witness :
  mapiter_visits_once Ref.X ∧
  ∃ e, (generateExpectation Ref.X Ref.generator0
          (Some Ref.response_json) Ref.world0).1 = Some e ∧
    ∀ hs, exp_Headers e = Some hs →
      hs_HasTotal hs = Some (Z.of_nat (size (res_Header Ref.response_json))) ∧
      length (hs_Items hs) ≤ size (res_Header Ref.response_json) ∧
      (length (hs_Items hs) = size (res_Header Ref.response_json) ↔
       ∀ name vals,
         res_Header Ref.response_json !! name = Some vals → length vals = 1).
Proof.
  split.
  - exact Ref_visits_once.
  - exact (itemized_headers_count Ref.X Ref_visits_once Ref.generator0
             Ref.response_json Ref.world0).
Defined.

(** *** The invoker: what the caller gets *)

(** X5. The value [Do] returns depends neither on the interceptors nor on what
    the sinks hold: observers cannot change the outcome of a call. *)
Theorem Do_result_ignores_interceptors
    (X : Externals) (c : HttpInvoker) (req : option HttpRequest)
    (interceptors interceptors' : list Interceptor) (σ σ' : World) :
  (Do X c req interceptors σ).1 = (Do X c req interceptors' σ').1.
Proof.
  destruct req as [req|]; [|done]. rewrite !Do_run.
  destruct (http_NewRequest X _ _ _) as [lowReq|err]; [|done]. cbn zeta.
  destruct (httpClient_Do X _) as [[lowRes|] [err|]]; try done.
  by destruct (lres_Body lowRes) as [[data [err|]]|].
Qed.





(** *** Interceptors without a sink *)

Section Inert.
Context (X : Externals).

Lemma preStep_inert lowReq i σ :
  has_sink i = false → preStep X lowReq i σ = ((), σ).
Proof.
  unfold has_sink, preStep.
  destruct (as_ExplanationWriter i) as [[[w|] ?]|]; cbn; done.
Qed.

Lemma postStep_inert c req res i σ :
  has_sink i = false → postStep X c req res i σ = ((), σ).
Proof.
  unfold has_sink, postStep.
  destruct (as_ExplanationWriter i) as [[[w|] ?]|]; cbn;
    destruct (as_SnapshotGenerator i) as [[[w'|]]|]; cbn; done.
Qed.

Lemma after_all_filter {A} (step : A → M unit) (keep : A → bool) l σ :
  (∀ a σ', keep a = false → step a σ' = ((), σ')) →
  after_all step (filter keep l) σ = after_all step l σ.
Proof.
  intros Hskip. revert σ. induction l as [|a l IH]; intros σ; [done|].
  rewrite filter_cons. destruct (keep a) eqn:Hkeep.
  - rewrite decide_True by done. cbn. apply IH.
  - rewrite decide_False by (by intros ?). rewrite after_all_cons, Hskip by done.
    apply IH.
Qed.

End Inert.

(** X8. An interceptor that offers no sink, because it implements neither
    capability or returns nil writers, is a no-op at both dispatch points:
    leaving such interceptors out changes neither what [Do] returns nor the
    world it leaves. *)
Theorem Do_skips_interceptors_without_sink
    (X : Externals) (c : HttpInvoker) (req : option HttpRequest)
    (interceptors : list Interceptor) (σ : World) :
  Do X c req interceptors σ = Do X c req (filter has_sink interceptors) σ.
Proof.
  destruct req as [req|]; [|done]. rewrite !Do_run.
  destruct (http_NewRequest X _ _ _) as [lowReq|err]; [|done]. cbn zeta.
  rewrite (after_all_filter (preStep X _)) by (intros; by apply preStep_inert).
  destruct (httpClient_Do X _) as [[lowRes|] [err|]]; try done.
  destruct (lres_Body lowRes) as [[data [err|]]|]; try done.
  by rewrite (after_all_filter (postStep X c req _))
    by (intros; by apply postStep_inert).
Qed.

(** *** Which sinks are written *)

Lemma touches_only_ret {A} P (a : A) : touches_only P (mret a).
Proof. by intros σ w _. Qed.

Lemma touches_only_bind {A B} P (m : M A) (k : A → M B) :
  touches_only P m → (∀ a, touches_only P (k a)) → touches_only P (m ≫= k).
Proof. intros Hm Hk σ w Hw. rewrite bind_run, Hk, Hm; done. Qed.

Lemma touches_only_forM {A} P (body : A → M unit) l :
  (∀ a, a ∈ l → touches_only P (body a)) → touches_only P (forM_ l body).
Proof.
  induction l as [|a l IH]; intros Hbody; [apply touches_only_ret|].
  apply touches_only_bind.
  - apply Hbody. left.
  - intros _. apply IH. intros a' Hin. apply Hbody. by right.
Qed.

Lemma touches_only_Fprintln (P : Writer → Prop) w operands :
  P w → touches_only P (Fprintln w operands).
Proof.
  intros HP σ w' Hw'. rewrite Fprintln_written. cbn. rewrite sink_written.
  case_decide; [by subst|done].
Qed.

Lemma touches_only_range X P h : touches_only P (range X h).
Proof. by intros σ w _. Qed.

Ltac frame_sinks :=
  repeat first
    [ progress intros
    | match goal with H : _ |- _ => solve [apply H; auto] end
    | apply touches_only_bind
    | apply touches_only_forM
    | apply touches_only_ret
    | apply touches_only_range
    | solve [apply touches_only_Fprintln; auto]
    | match goal with
      | |- context [match ?x with _ => _ end] => destruct x
      end ].

Section Sinks.
Context (X : Externals).

Lemma touches_only_renderHeaders (P : Writer → Prop) w mark h :
  P w → touches_only P (renderHeaders X w mark h).
Proof. intros HP. unfold renderHeaders. frame_sinks. Qed.

Lemma touches_only_renderRequest (P : Writer → Prop) w req :
  P w → touches_only P (renderRequest X w req).
Proof.
  intros HP. unfold renderRequest.
  pose proof (touches_only_renderHeaders P w). frame_sinks.
Qed.

Lemma touches_only_renderResponse (P : Writer → Prop) w res :
  P w → touches_only P (renderResponse X w res).
Proof.
  intros HP. unfold renderResponse.
  pose proof (touches_only_renderHeaders P w). frame_sinks.
Qed.

Lemma touches_only_generateExpectation P g res :
  touches_only P (generateExpectation X g res).
Proof.
  intros σ w _. destruct res as [res|]; [|done].
  rewrite generateExpectation_some. unfold sink. cbn.
  by rewrite (proj2 (measureHeaders_world X _ σ)).
Qed.

Lemma touches_only_generateTestCase (P : Writer → Prop) g w req res :
  P w → touches_only P (generateTestCase X g w req res).
Proof.
  intros HP. unfold generateTestCase.
  pose proof (touches_only_generateExpectation P). frame_sinks.
Qed.

Lemma elem_of_option_list {A} (a : A) (o : option A) :
  a ∈ option_list o ↔ o = Some a.
Proof.
  destruct o as [a'|]; cbn.
  - rewrite list_elem_of_singleton. naive_solver.
  - split; [by intros ?%not_elem_of_nil | done].
Qed.

Lemma elem_of_dispatch_sinks w l :
  w ∈ dispatch_sinks l ↔
  ∃ i, i ∈ l ∧ (as_ExplanationWriter i ≫= GetConsoleOut = Some w ∨
               as_SnapshotGenerator i ≫= GetTargetWriter = Some w).
Proof.
  unfold dispatch_sinks. rewrite list_elem_of_bind. split.
  - intros (i & Hw & Hi). exists i. split; [done|].
    apply elem_of_app in Hw as [Hw|Hw]; apply elem_of_option_list in Hw; auto.
  - intros (i & Hi & Hw). exists i. split; [|done]. apply elem_of_app.
    destruct Hw as [Hw|Hw]; [left|right]; by apply elem_of_option_list.
Qed.

Lemma touches_only_preStep l lowReq i :
  i ∈ l → touches_only (.∈ dispatch_sinks l) (preStep X lowReq i).
Proof.
  intros Hin. unfold preStep.
  destruct (as_ExplanationWriter i) as [[[w|] werr]|] eqn:Hi;
    try apply touches_only_ret.
  apply touches_only_bind; [|intros; apply touches_only_ret].
  apply touches_only_renderRequest, elem_of_dispatch_sinks.
  exists i. split; [done|]. left. by rewrite Hi.
Qed.

Lemma touches_only_postStep l c req res i :
  i ∈ l → touches_only (.∈ dispatch_sinks l) (postStep X c req res i).
Proof.
  intros Hin. unfold postStep. apply touches_only_bind.
  - destruct (as_ExplanationWriter i) as [[[w|] werr]|] eqn:Hi;
      try apply touches_only_ret.
    apply touches_only_bind; [|intros; apply touches_only_ret].
    apply touches_only_renderResponse, elem_of_dispatch_sinks.
    exists i. split; [done|]. left. by rewrite Hi.
  - intros _. destruct (as_SnapshotGenerator i) as [[[w|]]|] eqn:Hi;
      try apply touches_only_ret.
    apply touches_only_bind; [|intros; apply touches_only_ret].
    apply touches_only_generateTestCase, elem_of_dispatch_sinks.
    exists i. split; [done|]. right. by rewrite Hi.
Qed.

Lemma after_all_touches_only {A} P (step : A → M unit) l σ w :
  (∀ a, a ∈ l → touches_only P (step a)) → ¬ P w →
  sink (after_all step l σ) w = sink σ w.
Proof.
  intros Hstep Hw. rewrite <- forM_after_all.
  by apply (touches_only_forM P).
Qed.

End Sinks.

(** X9. [Do] writes to no sink other than the console outputs of the
    explanation writers and the targets of the snapshot generators it was
    given; the console error sink of an interceptor, unless it is also one
    of those, holds after the call what it held before. *)
Theorem Do_writes_only_to_dispatch_sinks
    (X : Externals) (c : HttpInvoker) (req : option HttpRequest)
    (interceptors : list Interceptor) (σ : World) (w : Writer)
    (Hw : w ∉ dispatch_sinks interceptors) :
  sink (Do X c req interceptors σ).2 w = sink σ w.
Proof.
  destruct req as [req|]; [|done]. rewrite Do_run.
  destruct (http_NewRequest X _ _ _) as [lowReq|err]; [|done]. cbn zeta.
  set (sent := addHeaders X lowReq (req_Headers req)).
  assert (Hpre : sink (emit (EvSend sent)
                         (after_all (preStep X sent) interceptors σ)).2 w
                 = sink σ w).
  { change (sink (emit ?ev ?σ0).2 w) with (sink σ0 w).
    apply (after_all_touches_only (.∈ dispatch_sinks interceptors)); [|done].
    intros i Hi. by apply touches_only_preStep. }
  destruct (httpClient_Do X sent) as [[lowRes|] [err|]]; cbn [snd]; try done.
  - by destruct (lres_Body lowRes).
  - destruct (lres_Body lowRes) as [[data [err|]]|]; cbn [snd]; try done.
    change (sink (emit EvClose ?σ0).2 w) with (sink σ0 w).
    rewrite (after_all_touches_only (.∈ dispatch_sinks interceptors)); try done.
    intros i Hi. by apply touches_only_postStep.
Qed.

Lemma Do_writes_only_to_dispatch_sinks_witness :
  let c := {| pdp := DEFAULT_PDP; generator := Ref.generator0 |} in
  let req := {| req_Method := ""; req_Url := ""; req_PDP := "";
                req_Path := "/orders"; req_Headers := []; req_Body := "" |} in
  let interceptors :=
    [ {| as_ExplanationWriter :=
           Some {| GetConsoleOut := Some 1; GetConsoleErr := Some 2 |};
         as_SnapshotGenerator := Some {| GetTargetWriter := Some 3 |} |} ] in
  (2 ∉ dispatch_sinks interceptors) ∧
  sink (Do Ref.X c (Some req) interceptors Ref.world0).2 2 = sink Ref.world0 2.
Proof.
  intros c req interceptors.
  assert (Hw : 2 ∉ dispatch_sinks interceptors).
  { apply (bool_decide_unpack _). vm_compute. exact I. }
  split; [exact Hw|].
  exact (Do_writes_only_to_dispatch_sinks Ref.X c (Some req) interceptors
           Ref.world0 2 Hw).
Defined.

(** *** Headers of the transport request *)

Lemma nonempty_true (s : string) : nonempty s = true ↔ s ≠ "".
Proof. by destruct s. Qed.

(** X10. The values a request ends up with under a header key are those the
    built request had, followed by the values of the descriptor's headers
    of that (canonical) name, in their order; a header whose name or value
    is empty adds nothing; method, URL and protocol are left alone. *)
Theorem addHeaders_values
    (X : Externals) (lowReq : Request) (headers : list HttpHeader)
    (key : string) :
  let added :=
    hh_Value <$>
      filter (λ h, sendable h ∧ CanonicalMIMEHeaderKey X (hh_Name h) = key)
        headers in
  lr_Header (addHeaders X lowReq headers) !! key
  = (if decide (added = []) then lr_Header lowReq !! key
     else Some (default [] (lr_Header lowReq !! key) ++ added)) ∧
  lr_Method (addHeaders X lowReq headers) = lr_Method lowReq ∧
  lr_URL (addHeaders X lowReq headers) = lr_URL lowReq ∧
  lr_Proto (addHeaders X lowReq headers) = lr_Proto lowReq.
Proof.
  revert lowReq. induction headers as [|h headers IH]; intros lowReq; [done|].
  cbn zeta in *. rewrite filter_cons.
  change (addHeaders X lowReq (h :: headers))
    with (addHeaders X
            (if sendable h then
               {| lr_Method := lr_Method lowReq; lr_URL := lr_URL lowReq;
                  lr_Proto := lr_Proto lowReq;
                  lr_Header := Header_Add X (lr_Header lowReq)
                                 (hh_Name h) (hh_Value h) |}
             else lowReq) headers).
  destruct (decide (sendable h ∧ CanonicalMIMEHeaderKey X (hh_Name h) = key))
    as [[Hs Hk]|Hn].
  - destruct (sendable h); [|done]. rewrite fmap_cons.
    destruct (IH {| lr_Method := lr_Method lowReq; lr_URL := lr_URL lowReq;
                   lr_Proto := lr_Proto lowReq;
                   lr_Header := Header_Add X (lr_Header lowReq)
                                  (hh_Name h) (hh_Value h) |})
      as (-> & -> & -> & ->).
    cbn. split; [|by repeat split]. unfold Header_Add. rewrite Hk, lookup_insert_eq. cbn.
    match goal with
    | |- context [decide (?v :: ?l = [])] =>
        destruct (decide (v :: l = [])) as [?|_]; [done|]
    end.
    case_decide as Hadded.
    + by rewrite Hadded.
    + by rewrite <- app_assoc.
  - destruct (sendable h) eqn:Hs; [|apply IH].
    destruct (IH {| lr_Method := lr_Method lowReq; lr_URL := lr_URL lowReq;
                   lr_Proto := lr_Proto lowReq;
                   lr_Header := Header_Add X (lr_Header lowReq)
                                  (hh_Name h) (hh_Value h) |})
      as (-> & -> & -> & ->).
    cbn. split; [|by repeat split]. unfold Header_Add.
    rewrite lookup_insert_ne; [done|]. intros Hk. by apply Hn.
Qed.

(** *** Transcripts *)

Lemma append_assoc (a b c : string) : (a +:+ b) +:+ c = a +:+ (b +:+ c).
Proof. induction a as [|x a IH]; [done|]. cbn. unfold String.app in *. cbn. by rewrite IH. Qed.

Lemma append_nil_r (a : string) : a +:+ "" = a.
Proof. induction a as [|x a IH]; [done|]. unfold String.app in *. cbn. by rewrite IH. Qed.

Lemma concat_snoc (line : list string) (s : string) :
  line ≠ [] →
  String.concat " " (line ++ [s]) = String.concat " " line +:+ " " +:+ s.
Proof.
  induction line as [|a [|b line] IH]; intros Hne; [done|reflexivity|].
  change (String.concat " " ((a :: b :: line) ++ [s]))
    with (a +:+ " " +:+ String.concat " " ((b :: line) ++ [s])).
  rewrite IH by done.
  change (String.concat " " (a :: b :: line))
    with (a +:+ " " +:+ String.concat " " (b :: line)).
  by rewrite !append_assoc.
Qed.

Lemma concat_append_if (line : list string) (s : string) :
  line ≠ [] →
  append_if line s ≠ [] ∧
  String.concat " " (append_if line s) = String.concat " " line +:+ spaced s.
Proof.
  intros Hne. unfold append_if, spaced. destruct s as [|x s]; cbn.
  - by rewrite append_nil_r.
  - split; [by destruct line|]. by rewrite concat_snoc.
Qed.

Section Transcripts.
Context (X : Externals).

Lemma forM_Fprintln_sink {A} w (f : A → string) (l : list A) σ w' :
  sink (forM_ l (λ a, Fprintln w [f a]) σ).2 w'
  = if decide (w = w') then sink σ w ++ ((λ a, f a +:+ nl) <$> l)
    else sink σ w'.
Proof.
  revert σ. induction l as [|a l IH]; intros σ.
  - cbn. case_decide; [subst; by rewrite app_nil_r | done].
  - cbn [forM_]. rewrite bind_run, IH, Fprintln_written. cbn [snd].
    rewrite !sink_written. case_decide; [|done]. subst.
    rewrite decide_True by done. by rewrite <- app_assoc.
Qed.

Lemma renderHeaders_sink w mark h σ w' :
  sink (renderHeaders X w mark h σ).2 w'
  = if decide (w = w') then sink σ w ++ header_lines mark (mapiter X (rng σ) h)
    else sink σ w'.
Proof.
  unfold renderHeaders. rewrite bind_run. cbn [range fst snd].
  set (σ1 := {| rng := S (rng σ); net := net σ; sinks := sinks σ |}).
  change (sink σ w) with (sink σ1 w). change (sink σ w') with (sink σ1 w').
  generalize σ1. clear σ1.
  destruct (decide (w = w')) as [<-|Hne].
  - induction (mapiter X (rng σ) h) as [|kv visited IH]; intros σ1.
    + cbn. by rewrite app_nil_r.
    + cbn [forM_]. rewrite bind_run, IH, forM_Fprintln_sink.
      rewrite decide_True by done. unfold header_lines. cbn.
      by rewrite <- app_assoc.
  - induction (mapiter X (rng σ) h) as [|kv visited IH]; intros σ1; [done|].
    cbn [forM_]. rewrite bind_run, IH, forM_Fprintln_sink.
    by rewrite decide_False.
Qed.

Lemma header_lines_visited (HX : mapiter_visits_once X) mark n h :
  header_lines mark (mapiter X n h) ≡ₚ header_lines mark (map_to_list h).
Proof. unfold header_lines. by rewrite (HX n h). Qed.

End Transcripts.

Section Rendering.
Context (X : Externals).

Lemma status_line_eq res :
  String.concat " "
    (if nonempty (res_Status res)
     then append_if ["<"] (res_Version res) ++ [res_Status res]
     else append_if ["<"] (res_Version res) ++ [pretty (res_StatusCode res)])
    +:+ nl
  = status_line res.
Proof.
  destruct (concat_append_if ["<"] (res_Version res)) as [Hne Hcat]; [done|].
  unfold status_line. rewrite nonempty_decide.
  destruct (decide (res_Status res = "")); rewrite concat_snoc, Hcat by done;
    by rewrite !append_assoc.
Qed.

Lemma renderResponse_sink w res σ w' :
  sink (renderResponse X w res σ).2 w'
  = if decide (w = w') then
      sink σ w ++ status_line res
        :: header_lines "< " (mapiter X (rng σ) (res_Header res))
        ++ ["<" +:+ nl; res_Body res +:+ nl]
    else sink σ w'.
Proof.
  unfold renderResponse. cbn zeta. rewrite !bind_run. cbn [mret M_ret snd].
  rewrite !Fprintln_written. cbn [fst snd].
  destruct (decide (w = w')) as [<-|Hne].
  - rewrite !sink_written, !decide_True, renderHeaders_sink, decide_True,
      sink_written, decide_True by done.
    cbn [String.concat rng written]. rewrite status_line_eq.
    by rewrite <- !app_assoc.
  - rewrite !sink_written, !decide_False, renderHeaders_sink, decide_False,
      sink_written, decide_False by done.
    done.
Qed.

Lemma request_line_eq req :
  String.concat " "
    (append_if
       match lr_URL req with
       | Some u =>
           if nonempty (url_RequestURI u)
           then append_if [">"] (lr_Method req) ++ [url_RequestURI u]
           else append_if (append_if [">"] (lr_Method req)) (url_Path u)
       | None => append_if [">"] (lr_Method req)
       end (lr_Proto req))
    +:+ nl
  = request_line req.
Proof.
  destruct (concat_append_if [">"] (lr_Method req)) as [Hne Hcat]; [done|].
  unfold request_line, request_target.
  destruct (lr_URL req) as [u|].
  - rewrite nonempty_decide. destruct (decide (url_RequestURI u = "")) as [Hu|Hu].
    + destruct (concat_append_if (append_if [">"] (lr_Method req)) (url_Path u))
        as [Hne' Hcat']; [done|].
      destruct (concat_append_if
                  (append_if (append_if [">"] (lr_Method req)) (url_Path u))
                  (lr_Proto req)) as [_ ->]; [done|].
      rewrite Hcat', Hcat. by rewrite !append_assoc.
    + assert (Hne' : append_if [">"] (lr_Method req) ++ [url_RequestURI u] ≠ [])
        by (by destruct (append_if _ _)).
      destruct (concat_append_if
                  (append_if [">"] (lr_Method req) ++ [url_RequestURI u])
                  (lr_Proto req)) as [_ ->]; [done|].
      rewrite concat_snoc, Hcat by done.
      assert (spaced (url_RequestURI u) = " " +:+ url_RequestURI u) as ->
        by (unfold spaced; by rewrite decide_False).
      by rewrite !append_assoc.
  - destruct (concat_append_if (append_if [">"] (lr_Method req)) (lr_Proto req))
      as [_ ->]; [done|].
    rewrite Hcat. change (spaced "") with "". by rewrite !append_assoc.
Qed.

Lemma renderRequest_sink w req σ w' :
  sink (renderRequest X w req σ).2 w'
  = if decide (w = w') then
      sink σ w ++ request_line req
        :: host_line req ++ agent_line X req
        ++ header_lines "> " (mapiter X (rng σ) (lr_Header req))
        ++ [">" +:+ nl]
    else sink σ w'.
Proof.
  unfold renderRequest. cbn zeta. rewrite !bind_run. cbn [mret M_ret snd].
  rewrite (Fprintln_written w [">"]). cbn [snd].
  assert (Hagent : ∀ σ0 w0,
    sink ((if nonempty (UserAgent X req)
           then Fprintln w ["> User-Agent: " +:+ UserAgent X req]
           else mret ()) σ0).2 w0
    = if decide (w = w0) then sink σ0 w ++ agent_line X req else sink σ0 w0).
  { intros σ0 w0. unfold agent_line. rewrite nonempty_decide.
    destruct (decide (UserAgent X req = "")).
    - cbn. case_decide; [subst; by rewrite app_nil_r | done].
    - rewrite Fprintln_written. cbn [snd]. by rewrite sink_written. }
  assert (Hhost : ∀ σ0 w0,
    sink (match lr_URL req with
          | Some u =>
              if nonempty (url_Host u)
              then Fprintln w ["> Host: " +:+ url_Host u]
              else mret ()
          | None => mret ()
          end σ0).2 w0
    = if decide (w = w0) then sink σ0 w ++ host_line req else sink σ0 w0).
  { intros σ0 w0. unfold host_line. destruct (lr_URL req) as [u|].
    - rewrite nonempty_decide. destruct (decide (url_Host u = "")).
      + cbn. case_decide; [subst; by rewrite app_nil_r | done].
      + rewrite Fprintln_written. cbn [snd]. by rewrite sink_written.
    - cbn. case_decide; [subst; by rewrite app_nil_r | done]. }
  destruct (decide (w = w')) as [<-|Hne].
  - rewrite sink_written, decide_True by done.
    rewrite renderHeaders_sink, decide_True by done.
    rewrite Hagent, decide_True by done.
    rewrite Hhost, decide_True by done.
    rewrite Fprintln_written. cbn [snd].
    rewrite sink_written, decide_True by done.
    cbn [String.concat]. rewrite request_line_eq.
    match goal with
    | |- context [mapiter X (rng ?σ0) _] =>
        assert (Hσ : rng σ0 = rng σ)
    end.
    { destruct (nonempty (UserAgent X req));
        (destruct (lr_URL req) as [u|]; [destruct (nonempty (url_Host u))|]);
        done. }
    rewrite Hσ, <- !app_assoc. done.
  - rewrite sink_written, decide_False by done.
    rewrite renderHeaders_sink, decide_False by done.
    rewrite Hagent, decide_False by done.
    rewrite Hhost, decide_False by done.
    rewrite Fprintln_written. cbn [snd].
    by rewrite sink_written, decide_False by done.
Qed.

End Rendering.

(** X11. A rendered response is the status line (protocol version when
    non-empty, then the status text, or the numeric code when the text is
    empty), one line per header value, each value exactly once, the bare
    marker line and the body; it goes to the given sink, after what the
    sink held, and to no other; the renderer returns no error. *)
Theorem renderResponse_transcript
    (X : Externals) (HX : mapiter_visits_once X)
    (w : Writer) (res : HttpResponse) (σ : World) :
  (renderResponse X w res σ).1 = None ∧
  ∃ lines,
    lines ≡ₚ header_lines "< " (map_to_list (res_Header res)) ∧
    ∀ w', sink (renderResponse X w res σ).2 w'
          = if decide (w = w') then
              sink σ w ++ status_line res :: lines
                ++ ["<" +:+ nl; res_Body res +:+ nl]
            else sink σ w'.
Proof.
  split.
  - unfold renderResponse. cbn zeta. by rewrite !bind_run.
  - exists (header_lines "< " (mapiter X (rng σ) (res_Header res))).
    split; [by apply header_lines_visited|].
    intros w'. apply renderResponse_sink.
Qed.

Lemma renderResponse_transcript_witness :
  mapiter_visits_once Ref.X ∧
  (renderResponse Ref.X 1 Ref.response_json Ref.world0).1 = None ∧
  ∃ lines,
    lines ≡ₚ header_lines "< " (map_to_list (res_Header Ref.response_json)) ∧
    ∀ w', sink (renderResponse Ref.X 1 Ref.response_json Ref.world0).2 w'
          = if decide (1 = w') then
              sink Ref.world0 1 ++ status_line Ref.response_json :: lines
                ++ ["<" +:+ nl; res_Body Ref.response_json +:+ nl]
            else sink Ref.world0 w'.
Proof.
  split.
  - exact Ref_visits_once.
  - exact (renderResponse_transcript Ref.X Ref_visits_once 1
             Ref.response_json Ref.world0).
Defined.

(** X12. A rendered request is the request line (method, request URI or else
    path, protocol, each only when non-empty), the host line when the URL
    names a host, the user-agent line when the request has a user agent,
    one line per header value, each value exactly once and the user agent
    among them again, and the bare marker line; it goes to the given sink
    and to no other; the renderer returns no error. *)
Theorem renderRequest_transcript
    (X : Externals) (HX : mapiter_visits_once X)
    (w : Writer) (req : Request) (σ : World) :
  (renderRequest X w req σ).1 = None ∧
  ∃ lines,
    lines ≡ₚ header_lines "> " (map_to_list (lr_Header req)) ∧
    ∀ w', sink (renderRequest X w req σ).2 w'
          = if decide (w = w') then
              sink σ w ++ request_line req
                :: host_line req ++ agent_line X req ++ lines ++ [">" +:+ nl]
            else sink σ w'.
Proof.
  split.
  - unfold renderRequest. cbn zeta. by rewrite !bind_run.
  - exists (header_lines "> " (mapiter X (rng σ) (lr_Header req))).
    split; [by apply header_lines_visited|].
    intros w'. apply renderRequest_sink.
Qed.

Lemma renderRequest_transcript_witness :
  let req :=
    {| lr_Method := "GET";
       lr_URL := Some {| url_RequestURI := "/orders"; url_Path := "/orders";
                         url_Host := "localhost:17779" |};
       lr_Proto := "HTTP/1.1";
       lr_Header := {[ "User-Agent" := ["opwire"];
                       "Accept" := ["application/json"] ]} |} in
  mapiter_visits_once Ref.X ∧
  (renderRequest Ref.X 1 req Ref.world0).1 = None ∧
  ∃ lines,
    lines ≡ₚ header_lines "> " (map_to_list (lr_Header req)) ∧
    ∀ w', sink (renderRequest Ref.X 1 req Ref.world0).2 w'
          = if decide (1 = w') then
              sink Ref.world0 1 ++ request_line req
                :: host_line req ++ agent_line Ref.X req ++ lines
                ++ [">" +:+ nl]
            else sink Ref.world0 w'.
Proof.
  intros req. split.
  - exact Ref_visits_once.
  - exact (renderRequest_transcript Ref.X Ref_visits_once 1 req Ref.world0).
Defined.

(** *** Construction of the invoker *)

(** X13. [NewHttpInvoker] never returns an error. With nil options it panics,
    its guard on the options notwithstanding. With options it returns an
    invoker that carries the given version and a non-empty root, so that a
    request without a URL is always resolved by joining a non-empty root
    with a non-empty path. *)
Theorem NewHttpInvoker_root_never_empty (X : Externals) :
  NewHttpInvoker None = Panicked ∧
  ∀ opts, ∃ c,
    NewHttpInvoker (Some opts) = Returned (c, None) ∧
    gen_Version (generator c) = opts_Version opts ∧
    pdp c ≠ "" ∧
    ∀ req, req_Url req = "" →
      ∃ root path,
        root ≠ "" ∧ path ≠ "" ∧ resolveUrl X c req = (UrlJoin X root path).1.
Proof.
  split; [done|]. intros opts. eexists. split; [reflexivity|]. cbn.
  split; [done|].
  assert (Hroot : (if nonempty (opts_PDP opts) then opts_PDP opts
                   else DEFAULT_PDP) ≠ "").
  { destruct (opts_PDP opts); done. }
  split; [exact Hroot|]. intros req Hurl. rewrite resolveUrl_eq, Hurl. cbn.
  do 2 eexists. split; [|split; [|reflexivity]].
  - case_decide; [exact Hroot | done].
  - case_decide; done.
Qed.

(** * Properties of [ConvertTabToSpaces] *)

Lemma Ref_Map_applies : Map_applies Ref.Map.
Proof.
  intros lines f. unfold Ref.Map.
  assert (Hgen : ∀ n : nat,
    Ref.Map_from (Z.of_nat n) lines f
    = imap (λ i line, f line (Z.of_nat (n + i))) lines).
  { induction lines as [|line lines IH]; intros n; [done|].
    cbn. rewrite Nat.add_0_r. f_equal.
    replace (Z.of_nat n + 1)%Z with (Z.of_nat (S n)) by lia.
    rewrite IH. apply imap_ext. intros i x _. cbn. f_equal. lia. }
  apply (Hgen 0).
Qed.

(** *** Strings as character lists *)

Lemma chars_app (a b : string) : chars (a +:+ b) = chars a ++ chars b.
Proof.
  induction a as [|c a IH]; [done|].
  change (String c a +:+ b) with (String c (a +:+ b)). cbn. by rewrite IH.
Qed.

Lemma concat_cons (sep a b : string) (l : list string) :
  String.concat sep (a :: b :: l) = a +:+ sep +:+ String.concat sep (b :: l).
Proof. done. Qed.

Lemma chars_string_drop n s c : c ∈ chars (string_drop n s) → c ∈ chars s.
Proof.
  revert s. induction n as [|n IH]; intros [|x s]; cbn; try done.
  intros Hin. right. by apply IH.
Qed.

Lemma chars_ReplaceAll s old new c :
  c ∈ chars (ReplaceAll s old new) → (c ∈ chars s ∧ c ≠ old) ∨ c ∈ chars new.
Proof.
  induction s as [|x s IH]; cbn; [by intros ?%not_elem_of_nil|].
  case_decide as Hx.
  - rewrite chars_app, elem_of_app. intros [Hin|Hin]; [by right|].
    destruct (IH Hin) as [[? ?]|?]; [left|by right]. split; [by right|done].
  - cbn. rewrite elem_of_cons. intros [->|Hin].
    + left. split; [left|done].
    + destruct (IH Hin) as [[? ?]|?]; [left|by right]. split; [by right|done].
Qed.

Lemma ReplaceAll_absent s old new : old ∉ chars s → ReplaceAll s old new = s.
Proof.
  induction s as [|x s IH]; cbn; [done|]. intros Hnot.
  rewrite decide_False by (intros ->; apply Hnot; left).
  rewrite IH; [done|]. intros Hin. apply Hnot. by right.
Qed.

Lemma ReplaceAll_app a b old new :
  ReplaceAll (a +:+ b) old new = ReplaceAll a old new +:+ ReplaceAll b old new.
Proof.
  induction a as [|x a IH]; [done|].
  change (String x a +:+ b) with (String x (a +:+ b)). cbn.
  case_decide; rewrite IH; [by rewrite append_assoc | done].
Qed.

(** *** Splitting and joining *)

Lemma Split_lines_nonempty s : Split_lines s ≠ [].
Proof.
  induction s as [|c s IH]; cbn; [done|].
  case_decide; [done|]. by destruct (Split_lines s).
Qed.

Lemma Join_Split s : Join_lines (Split_lines s) = s.
Proof.
  unfold Join_lines. induction s as [|c s IH]; [done|]. cbn.
  pose proof (Split_lines_nonempty s) as Hne.
  destruct (Split_lines s) as [|line rest]; [done|].
  case_decide as Hc.
  - rewrite concat_cons, IH. by subst.
  - destruct rest as [|line' rest].
    + cbn in *. by rewrite IH.
    + rewrite concat_cons in *. rewrite <- IH. done.
Qed.

Lemma Split_lines_line s line c :
  line ∈ Split_lines s → c ∈ chars line → c ∈ chars s ∧ c ≠ line_feed.
Proof.
  revert line. induction s as [|x s IH]; intros line; cbn.
  - intros ->%list_elem_of_singleton. by intros ?%not_elem_of_nil.
  - pose proof (Split_lines_nonempty s) as Hne.
    case_decide as Hx.
    + rewrite elem_of_cons. intros [->|Hin]; [by intros ?%not_elem_of_nil|].
      intros Hc. destruct (IH line Hin Hc). split; [by right|done].
    + destruct (Split_lines s) as [|first rest]; [done|].
      rewrite elem_of_cons. intros [->|Hin].
      * cbn. rewrite elem_of_cons. intros [->|Hc]; [split; [left|done]|].
        destruct (IH first (ltac:(left)) Hc). split; [by right|done].
      * intros Hc. destruct (IH line (ltac:(by right)) Hc).
        split; [by right|done].
Qed.

Lemma Split_lines_app a r :
  line_feed ∉ chars a → Split_lines (a +:+ nl +:+ r) = a :: Split_lines r.
Proof.
  induction a as [|c a IH]; intros Hnot; [done|].
  change (String c a +:+ nl +:+ r) with (String c (a +:+ nl +:+ r)). cbn.
  rewrite decide_False by (intros ->; apply Hnot; left).
  rewrite IH; [done|]. intros Hin. apply Hnot. by right.
Qed.

Lemma Split_lines_single a : line_feed ∉ chars a → Split_lines a = [a].
Proof.
  induction a as [|c a IH]; intros Hnot; [done|]. cbn.
  rewrite decide_False by (intros ->; apply Hnot; left).
  rewrite IH; [done|]. intros Hin. apply Hnot. by right.
Qed.

Lemma Split_Join lines :
  lines ≠ [] → Forall (λ line, line_feed ∉ chars line) lines →
  Split_lines (Join_lines lines) = lines.
Proof.
  unfold Join_lines.
  induction lines as [|a [|b lines] IH]; intros Hne Hall; [done|..].
  - apply Split_lines_single. by apply Forall_inv in Hall.
  - rewrite concat_cons. apply Forall_cons in Hall as [Ha Hall].
    rewrite Split_lines_app by done. by rewrite IH.
Qed.

Lemma ReplaceAll_Join lines old new :
  old ≠ line_feed →
  ReplaceAll (Join_lines lines) old new
  = Join_lines ((λ line, ReplaceAll line old new) <$> lines).
Proof.
  intros Hold. unfold Join_lines.
  induction lines as [|a [|b lines] IH]; [done|done|].
  rewrite concat_cons, !ReplaceAll_app, IH. cbn [fmap list_fmap].
  rewrite concat_cons. f_equal. f_equal. cbn.
  by rewrite decide_False by (by intros <-).
Qed.

(** *** Leading tabs *)

Lemma IndexFunc_from_shift (f : ascii → bool) s i :
  (0 ≤ i)%Z →
  IndexFunc_from i s f
  = (if decide (IndexFunc_from 0 s f = -1) then -1 else IndexFunc_from 0 s f + i)%Z
  ∧ (-1 ≤ IndexFunc_from 0 s f)%Z.
Proof.
  revert i. induction s as [|c s IH]; intros i Hi; cbn; [done|].
  destruct (f c).
  - rewrite decide_False by done. split; lia.
  - destruct (IH (i + 1)%Z ltac:(lia)) as [-> _].
    destruct (IH (0 + 1)%Z ltac:(lia)) as [-> Hge].
    destruct (decide (IndexFunc_from 0 s f = -1)%Z) as [Hs|Hs].
    + rewrite decide_True by done. done.
    + rewrite decide_False by lia. split; lia.
Qed.

Lemma tablen_nil : tablen "" = (-1)%Z.
Proof. done. Qed.

Lemma tablen_cons c s :
  tablen (String c s)
  = if decide (c = tab) then
      if decide (tablen s = -1)%Z then (-1)%Z else (tablen s + 1)%Z
    else 0%Z.
Proof.
  unfold tablen, IndexFunc. cbn. case_bool_decide as Hc.
  - by rewrite decide_False.
  - rewrite decide_True by (by destruct (decide (c = tab))).
    by destruct (IndexFunc_from_shift (λ c, bool_decide (c ≠ tab)) s (0 + 1))
      as [-> _].
Qed.

Lemma tablen_ge line : (-1 ≤ tablen line)%Z.
Proof.
  induction line as [|c s IH]; [done|]. rewrite tablen_cons.
  repeat case_decide; lia.
Qed.

Lemma tablen_tab_free line : tab ∉ chars line → (tablen line ≤ 0)%Z.
Proof.
  destruct line as [|c s]; [done|]. intros Hnot. rewrite tablen_cons.
  rewrite decide_False; [done|]. intros ->. apply Hnot. left.
Qed.

Lemma tablen_blank line c : tablen line = (-1)%Z → c ∈ chars line → c = tab.
Proof.
  induction line as [|x s IH]; [by intros _ ?%not_elem_of_nil|].
  rewrite tablen_cons. cbn. pose proof (tablen_ge s).
  repeat case_decide; try lia. intros _. rewrite elem_of_cons.
  intros [->|Hin]; [done|]. by apply IH.
Qed.

Lemma tablen_tabs line (n : nat) :
  (Z.of_nat n ≤ tablen line)%Z → line = tabs n +:+ string_drop n line.
Proof.
  revert line. induction n as [|n IH]; intros line Hn; [done|].
  destruct line as [|c s]; [rewrite tablen_nil in Hn; lia|].
  rewrite tablen_cons in Hn. repeat case_decide; try lia. subst c.
  cbn. change (String tab ?a +:+ ?b) with (String tab (a +:+ b)).
  f_equal. apply IH. lia.
Qed.

(** *** The indent loop *)

Section Indent.

Let step (indent : Z) (line : string) : Z :=
  if bool_decide (indent < 0)%Z || bool_decide (indent > tablen line)%Z
  then tablen line else indent.

Lemma detectIndent_fold lines :
  detectIndent lines
  = if bool_decide (foldl step (-1)%Z lines < 0)%Z then 0%Z
    else foldl step (-1)%Z lines.
Proof. done. Qed.

Lemma step_blank indent line : tablen line = (-1)%Z → step indent line = (-1)%Z.
Proof.
  intros Hline. unfold step. rewrite Hline.
  repeat case_bool_decide; cbn; lia.
Qed.

Lemma fold_nonpos lines indent :
  (∀ line, line ∈ lines → (tablen line ≤ 0)%Z) → (indent ≤ 0)%Z →
  (foldl step indent lines ≤ 0)%Z.
Proof.
  revert indent. induction lines as [|line lines IH]; intros indent Hall Hi;
    [done|].
  cbn. apply IH; [intros l Hl; apply Hall; by right|].
  unfold step. pose proof (Hall line ltac:(left)).
  repeat case_bool_decide; cbn; lia.
Qed.

Lemma fold_min lines indent :
  (∀ line, line ∈ lines → (0 ≤ tablen line)%Z) → (0 ≤ indent)%Z →
  (0 ≤ foldl step indent lines ≤ indent)%Z ∧
  (∀ line, line ∈ lines → (foldl step indent lines ≤ tablen line)%Z) ∧
  (foldl step indent lines = indent ∨
   ∃ line, line ∈ lines ∧ tablen line = foldl step indent lines).
Proof.
  revert indent. induction lines as [|line lines IH]; intros indent Hall Hi.
  - cbn. split; [lia|]. split; [by intros ? ?%not_elem_of_nil | by left].
  - pose proof (Hall line ltac:(left)) as Hline.
    assert (Hstep : (0 ≤ step indent line)%Z ∧ (step indent line ≤ indent)%Z ∧
                    (step indent line ≤ tablen line)%Z ∧
                    (step indent line = indent ∨ step indent line = tablen line)).
    { unfold step. repeat case_bool_decide; cbn; lia. }
    destruct Hstep as (H0 & Hle & Hlt & Hor).
    destruct (IH (step indent line) ltac:(intros l Hl; apply Hall; by right) H0)
      as (Hr & Hmin & Hatt).
    cbn [foldl]. split; [lia|]. split.
    + intros l [->|Hl]%elem_of_cons; [lia | by apply Hmin].
    + destruct Hatt as [Heq|(l & Hl & Heq)].
      * destruct Hor as [Hor|Hor].
        -- left. lia.
        -- right. exists line. split; [left | lia].
      * right. exists l. split; [by right | done].
Qed.

Lemma detectIndent_ge lines : (0 ≤ detectIndent lines)%Z.
Proof. rewrite detectIndent_fold. case_bool_decide; lia. Qed.

Lemma detectIndent_nonpos lines :
  (∀ line, line ∈ lines → (tablen line ≤ 0)%Z) → detectIndent lines = 0%Z.
Proof.
  intros Hall. rewrite detectIndent_fold.
  pose proof (fold_nonpos lines (-1)%Z Hall ltac:(lia)).
  case_bool_decide; lia.
Qed.

Lemma detectIndent_after_blank before blank after :
  tablen blank = (-1)%Z →
  detectIndent (before ++ blank :: after) = detectIndent after.
Proof.
  intros Hblank. rewrite !detectIndent_fold, foldl_app. cbn [foldl].
  by rewrite step_blank.
Qed.

Lemma detectIndent_last_blank before blank :
  tablen blank = (-1)%Z → detectIndent (before ++ [blank]) = 0%Z.
Proof. intros Hblank. by rewrite detectIndent_after_blank. Qed.

Lemma detectIndent_min lines :
  lines ≠ [] → (∀ line, line ∈ lines → (0 ≤ tablen line)%Z) →
  (∀ line, line ∈ lines → (detectIndent lines ≤ tablen line)%Z) ∧
  (∃ line, line ∈ lines ∧ tablen line = detectIndent lines).
Proof.
  intros Hne Hall. destruct lines as [|first lines]; [done|].
  rewrite detectIndent_fold. cbn [foldl].
  pose proof (Hall first ltac:(left)) as Hfirst.
  assert (Hstep : step (-1)%Z first = tablen first).
  { unfold step. by rewrite bool_decide_true by lia. }
  rewrite Hstep.
  destruct (fold_min lines (tablen first)
              ltac:(intros l Hl; apply Hall; by right) Hfirst)
    as (Hr & Hmin & Hatt).
  rewrite bool_decide_false by lia. split.
  - intros l [->|Hl]%elem_of_cons; [lia | by apply Hmin].
  - destruct Hatt as [Heq|(l & Hl & Heq)].
    + exists first. split; [left | lia].
    + exists l. split; [by right | done].
Qed.

End Indent.

Lemma effectiveDedent_le lines dedent :
  (effectiveDedent lines dedent ≤ detectIndent lines)%Z ∧
  (dedent = 0%Z → effectiveDedent lines dedent = detectIndent lines) ∧
  (detectIndent lines = 0%Z → (effectiveDedent lines dedent ≤ 0)%Z) ∧
  ((dedent < 0)%Z → (effectiveDedent lines dedent < 0)%Z).
Proof.
  unfold effectiveDedent. pose proof (detectIndent_ge lines).
  repeat case_bool_decide; cbn; repeat split; intros; lia.
Qed.

(** *** The function, line by line *)

Lemma TrimLeftFunc_count dedent line count :
  TrimLeftFunc line
    (λ count r, let count := (count + 1)%Z in
                (bool_decide (count ≤ dedent)%Z, count))
    count
  = string_drop (Z.to_nat (dedent - count)) line.
Proof.
  revert count. induction line as [|c line IH]; intros count; cbn.
  - by destruct (Z.to_nat _).
  - case_bool_decide.
    + rewrite IH.
      replace (Z.to_nat (dedent - count))
        with (S (Z.to_nat (dedent - (count + 1)))) by lia.
      done.
    + by replace (Z.to_nat (dedent - count)) with 0 by lia.
Qed.

Lemma dedentLine_eq dedent line number :
  dedentLine dedent line number
  = ReplaceAll (string_drop (Z.to_nat dedent) line) tab "  ".
Proof. unfold dedentLine. cbn zeta. by rewrite TrimLeftFunc_count, Z.sub_0_r. Qed.

Lemma tab_not_line_feed : tab ≠ line_feed.
Proof. intros [=]. Qed.

Lemma tab_not_space : tab ∉ chars "  ".
Proof. intros Hin. repeat apply elem_of_cons in Hin as [[=]|Hin]. by apply not_elem_of_nil in Hin. Qed.

Section Convert.
Context (Map : list string → (string → Z → string) → list string).
Hypothesis HMap : Map_applies Map.

Lemma ConvertTabToSpaces_lines block dedent :
  ConvertTabToSpaces Map block dedent
  = Join_lines
      ((λ line,
          ReplaceAll
            (string_drop
               (Z.to_nat (effectiveDedent (Split_lines block) dedent)) line)
            tab "  ")
         <$> Split_lines block).
Proof.
  unfold ConvertTabToSpaces. cbn zeta. rewrite HMap. f_equal.
  rewrite <- imap_const. apply imap_ext. intros i line _.
  apply dedentLine_eq.
Qed.

Lemma ConvertTabToSpaces_no_tab block dedent :
  tab ∉ chars (ConvertTabToSpaces Map block dedent).
Proof.
  rewrite ConvertTabToSpaces_lines. unfold Join_lines.
  generalize (Z.to_nat (effectiveDedent (Split_lines block) dedent)).
  intros k.
  assert (Hline : ∀ line, tab ∉ chars (ReplaceAll (string_drop k line) tab "  ")).
  { intros line [[_ ?]|Hin]%chars_ReplaceAll; [done|].
    by apply tab_not_space in Hin. }
  induction (Split_lines block) as [|a [|b lines] IH]; cbn [fmap list_fmap].
  - by intros ?%not_elem_of_nil.
  - apply Hline.
  - rewrite concat_cons, !chars_app, !elem_of_app. intros [Hin|[Hin|Hin]].
    + by apply Hline in Hin.
    + apply list_elem_of_singleton in Hin. by apply tab_not_line_feed.
    + by apply IH.
Qed.

Lemma ConvertTabToSpaces_tab_free block dedent :
  tab ∉ chars block → ConvertTabToSpaces Map block dedent = block.
Proof.
  intros Hfree. rewrite ConvertTabToSpaces_lines.
  assert (Hlines : ∀ line, line ∈ Split_lines block → tab ∉ chars line).
  { intros line Hline Hin. by destruct (Split_lines_line block line tab). }
  assert (Hk : Z.to_nat (effectiveDedent (Split_lines block) dedent) = 0).
  { destruct (effectiveDedent_le (Split_lines block) dedent) as (_ & _ & Hz & _).
    rewrite detectIndent_nonpos in Hz; [specialize (Hz eq_refl); lia|].
    intros line Hline. by apply tablen_tab_free, Hlines. }
  rewrite Hk. rewrite <- (Join_Split block) at 2. f_equal.
  rewrite <- (list_fmap_id (Split_lines block)) at 2.
  apply list_fmap_ext. intros i line Hline%list_elem_of_lookup_2. cbn.
  by apply ReplaceAll_absent, Hlines.
Qed.

End Convert.

Lemma Split_lines_app_lines a r :
  Split_lines (a +:+ nl +:+ r) = Split_lines a ++ Split_lines r.
Proof.
  induction a as [|c a IH]; [done|].
  change (String c a +:+ nl +:+ r) with (String c (a +:+ nl +:+ r)). cbn.
  rewrite IH. pose proof (Split_lines_nonempty a).
  case_decide; [done|]. by destruct (Split_lines a).
Qed.

(** X14. The result never contains a tab, and converting it once more, with
    whatever dedent, gives it back unchanged. *)
Theorem ConvertTabToSpaces_output_is_stable
    (Map : list string → (string → Z → string) → list string)
    (HMap : Map_applies Map) (block : string) (dedent : Z) :
  (tab ∉ chars (ConvertTabToSpaces Map block dedent)) ∧
  ∀ dedent',
    ConvertTabToSpaces Map (ConvertTabToSpaces Map block dedent) dedent'
    = ConvertTabToSpaces Map block dedent.
Proof.
  split; [by apply ConvertTabToSpaces_no_tab|].
  intros dedent'. apply ConvertTabToSpaces_tab_free; [done|].
  by apply ConvertTabToSpaces_no_tab.
Qed.

Lemma ConvertTabToSpaces_output_is_stable_witness :
  let block := tabs 2 +:+ "foo" +:+ nl +:+ tabs 1 +:+ "bar" in
  Map_applies Ref.Map ∧
  (tab ∉ chars (ConvertTabToSpaces Ref.Map block 0)) ∧
  ∀ dedent',
    ConvertTabToSpaces Ref.Map (ConvertTabToSpaces Ref.Map block 0) dedent'
    = ConvertTabToSpaces Ref.Map block 0.
Proof.
  intros block. split.
  - exact Ref_Map_applies.
  - exact (ConvertTabToSpaces_output_is_stable Ref.Map Ref_Map_applies block 0).
Defined.

(** X15. A block without tabs is returned as it is, whatever the dedent. *)
Theorem ConvertTabToSpaces_keeps_tab_free_text
    (Map : list string → (string → Z → string) → list string)
    (HMap : Map_applies Map) (block : string) (dedent : Z)
    (Hfree : tab ∉ chars block) :
  ConvertTabToSpaces Map block dedent = block.
Proof. by apply ConvertTabToSpaces_tab_free. Qed.

Lemma ConvertTabToSpaces_keeps_tab_free_text_witness :
  let block := "  foo" +:+ nl +:+ nl +:+ "bar" +:+ nl in
  Map_applies Ref.Map ∧ (tab ∉ chars block) ∧
  ConvertTabToSpaces Ref.Map block 3 = block.
Proof.
  intros block.
  assert (Hfree : tab ∉ chars block).
  { apply (bool_decide_unpack _). vm_compute. exact I. }
  split; [exact Ref_Map_applies|]. split; [exact Hfree|].
  exact (ConvertTabToSpaces_keeps_tab_free_text Ref.Map Ref_Map_applies
           block 3 Hfree).
Defined.

(** X16. The result has as many lines as the block, and each of its lines is
    the corresponding line of the block without its first [k] characters
    and with every tab left replaced by two spaces, [k] being the dedent in
    force, the same for all lines. *)
Theorem ConvertTabToSpaces_line_by_line
    (Map : list string → (string → Z → string) → list string)
    (HMap : Map_applies Map) (block : string) (dedent : Z) :
  let k := Z.to_nat (effectiveDedent (Split_lines block) dedent) in
  Split_lines (ConvertTabToSpaces Map block dedent)
  = (λ line, ReplaceAll (string_drop k line) tab "  ") <$> Split_lines block.
Proof.
  intros k. rewrite (ConvertTabToSpaces_lines Map HMap). fold k.
  apply Split_Join.
  - pose proof (Split_lines_nonempty block). by destruct (Split_lines block).
  - apply Forall_fmap, Forall_forall. intros line Hline. cbn.
    intros [[Hin _]|Hin]%chars_ReplaceAll.
    + apply chars_string_drop in Hin.
      by destruct (Split_lines_line block line line_feed).
    + repeat apply elem_of_cons in Hin as [[=]|Hin].
      by apply not_elem_of_nil in Hin.
Qed.

Lemma ConvertTabToSpaces_line_by_line_witness :
  let block := tabs 2 +:+ "foo" +:+ nl +:+ tabs 3 +:+ "bar" in
  Map_applies Ref.Map ∧
  let k := Z.to_nat (effectiveDedent (Split_lines block) 1) in
  Split_lines (ConvertTabToSpaces Ref.Map block 1)
  = (λ line, ReplaceAll (string_drop k line) tab "  ") <$> Split_lines block.
Proof.
  intros block. split.
  - exact Ref_Map_applies.
  - exact (ConvertTabToSpaces_line_by_line Ref.Map Ref_Map_applies block 1).
Defined.

(** X17. With a negative dedent, or when the last line of the block has no
    character other than tabs (as after a final line feed), nothing is
    removed: the result is the block with every tab replaced by two
    spaces. *)
Theorem ConvertTabToSpaces_without_dedent
    (Map : list string → (string → Z → string) → list string)
    (HMap : Map_applies Map) (block : string) (dedent : Z)
    (Hnone : (dedent < 0)%Z ∨
             ∃ before last, Split_lines block = before ++ [last] ∧
                            tablen last = (-1)%Z) :
  ConvertTabToSpaces Map block dedent = ReplaceAll block tab "  ".
Proof.
  rewrite (ConvertTabToSpaces_lines Map HMap).
  assert (Hk : Z.to_nat (effectiveDedent (Split_lines block) dedent) = 0).
  { destruct (effectiveDedent_le (Split_lines block) dedent)
      as (_ & _ & Hzero & Hneg).
    destruct Hnone as [Hd|(before & last & Hsplit & Hlast)].
    - specialize (Hneg Hd). lia.
    - rewrite Hsplit in *. rewrite detectIndent_last_blank in Hzero by done.
      specialize (Hzero eq_refl). lia. }
  rewrite Hk. rewrite <- (Join_Split block) at 2.
  by rewrite ReplaceAll_Join by apply tab_not_line_feed.
Qed.

Lemma ConvertTabToSpaces_without_dedent_witness :
  let block := tabs 2 +:+ "foo" +:+ nl +:+ tabs 2 +:+ "bar" +:+ nl in
  Map_applies Ref.Map ∧
  ((0 < 0)%Z ∨
   ∃ before last, Split_lines block = before ++ [last] ∧ tablen last = (-1)%Z) ∧
  ConvertTabToSpaces Ref.Map block 0 = ReplaceAll block tab "  ".
Proof.
  intros block.
  assert (Hnone : (0 < 0)%Z ∨
                  ∃ before last, Split_lines block = before ++ [last] ∧
                                 tablen last = (-1)%Z).
  { right. exists [tabs 2 +:+ "foo"; tabs 2 +:+ "bar"], "".
    split; reflexivity. }
  split; [exact Ref_Map_applies|]. split; [exact Hnone|].
  exact (ConvertTabToSpaces_without_dedent Ref.Map Ref_Map_applies block 0 Hnone).
Defined.

(** X18. When every line of the block has a character other than a tab, the
    indent found is the smallest number of leading tabs of a line, the
    dedent in force is at most that (and exactly that for a dedent of
    zero), and what is removed from each line is that many leading tabs
    and nothing else. *)
Theorem ConvertTabToSpaces_removes_common_tabs
    (Map : list string → (string → Z → string) → list string)
    (HMap : Map_applies Map) (block : string) (dedent : Z)
    (Hlines : ∀ line, line ∈ Split_lines block → (0 ≤ tablen line)%Z) :
  let indent := detectIndent (Split_lines block) in
  let k := Z.to_nat (effectiveDedent (Split_lines block) dedent) in
  (∀ line, line ∈ Split_lines block → (indent ≤ tablen line)%Z) ∧
  (∃ line, line ∈ Split_lines block ∧ tablen line = indent) ∧
  (Z.of_nat k ≤ indent)%Z ∧
  (dedent = 0%Z → Z.of_nat k = indent) ∧
  (∀ line, line ∈ Split_lines block → line = tabs k +:+ string_drop k line) ∧
  ConvertTabToSpaces Map block dedent
  = Join_lines ((λ line, ReplaceAll (string_drop k line) tab "  ")
                  <$> Split_lines block).
Proof.
  intros indent k.
  destruct (detectIndent_min (Split_lines block)
              (Split_lines_nonempty block) Hlines) as [Hmin Hatt].
  destruct (effectiveDedent_le (Split_lines block) dedent) as (Hle & Hzero & _).
  pose proof (detectIndent_ge (Split_lines block)) as Hge.
  fold indent in Hmin, Hatt, Hle, Hzero, Hge.
  assert (Hk : (Z.of_nat k ≤ indent)%Z) by (unfold k; lia).
  split; [exact Hmin|]. split; [exact Hatt|]. split; [exact Hk|].
  split; [intros Hd; unfold k; rewrite (Hzero Hd); lia|].
  split; [|by apply ConvertTabToSpaces_lines].
  intros line Hline. apply tablen_tabs. specialize (Hmin line Hline). lia.
Qed.

Lemma ConvertTabToSpaces_removes_common_tabs_witness :
  let block := tabs 2 +:+ "foo" +:+ nl +:+ tabs 3 +:+ "bar" in
  Map_applies Ref.Map ∧
  (∀ line, line ∈ Split_lines block → (0 ≤ tablen line)%Z) ∧
  let indent := detectIndent (Split_lines block) in
  let k := Z.to_nat (effectiveDedent (Split_lines block) 0) in
  (∀ line, line ∈ Split_lines block → (indent ≤ tablen line)%Z) ∧
  (∃ line, line ∈ Split_lines block ∧ tablen line = indent) ∧
  (Z.of_nat k ≤ indent)%Z ∧
  (0%Z = 0%Z → Z.of_nat k = indent) ∧
  (∀ line, line ∈ Split_lines block → line = tabs k +:+ string_drop k line) ∧
  ConvertTabToSpaces Ref.Map block 0
  = Join_lines ((λ line, ReplaceAll (string_drop k line) tab "  ")
                  <$> Split_lines block).
Proof.
  intros block.
  assert (Hlines : ∀ line, line ∈ Split_lines block → (0 ≤ tablen line)%Z).
  { intros line Hline.
    repeat apply elem_of_cons in Hline as [->|Hline]; [by vm_compute..|].
    by apply not_elem_of_nil in Hline. }
  split; [exact Ref_Map_applies|]. split; [exact Hlines|].
  exact (ConvertTabToSpaces_removes_common_tabs Ref.Map Ref_Map_applies
           block 0 Hlines).
Defined.

(** X19. Lines before a line without a character other than tabs have no say
    in the dedent: it is the one of the lines after that line alone, and
    it is taken off every line, those before included, whatever their
    first characters are. *)
Theorem ConvertTabToSpaces_blank_line_restarts_indent
    (Map : list string → (string → Z → string) → list string)
    (HMap : Map_applies Map) (before blank after : string) (dedent : Z)
    (Hblank : tablen blank = (-1)%Z) :
  let block := before +:+ nl +:+ blank +:+ nl +:+ after in
  let k := Z.to_nat (effectiveDedent (Split_lines after) dedent) in
  effectiveDedent (Split_lines block) dedent
  = effectiveDedent (Split_lines after) dedent ∧
  ConvertTabToSpaces Map block dedent
  = Join_lines ((λ line, ReplaceAll (string_drop k line) tab "  ")
                  <$> (Split_lines before ++ blank :: Split_lines after)).
Proof.
  intros block k.
  assert (Hsplit : Split_lines block
                   = Split_lines before ++ blank :: Split_lines after).
  { unfold block. rewrite Split_lines_app_lines. f_equal.
    apply Split_lines_app. intros Hin.
    apply (tablen_blank blank line_feed Hblank) in Hin.
    by apply tab_not_line_feed. }
  assert (Hk : effectiveDedent (Split_lines block) dedent
               = effectiveDedent (Split_lines after) dedent).
  { unfold effectiveDedent. by rewrite Hsplit, detectIndent_after_blank. }
  split; [exact Hk|].
  rewrite (ConvertTabToSpaces_lines Map HMap). fold block.
  by rewrite Hk, Hsplit.
Qed.

Lemma ConvertTabToSpaces_blank_line_restarts_indent_witness :
  let before := "x" in
  let blank := "" in
  let after := tabs 2 +:+ "y" in
  Map_applies Ref.Map ∧
  tablen blank = (-1)%Z ∧
  let block := before +:+ nl +:+ blank +:+ nl +:+ after in
  let k := Z.to_nat (effectiveDedent (Split_lines after) 0) in
  effectiveDedent (Split_lines block) 0 = effectiveDedent (Split_lines after) 0 ∧
  ConvertTabToSpaces Ref.Map block 0
  = Join_lines ((λ line, ReplaceAll (string_drop k line) tab "  ")
                  <$> (Split_lines before ++ blank :: Split_lines after)).
Proof.
  intros before blank after.
  split; [exact Ref_Map_applies|]. split; [reflexivity|].
  exact (ConvertTabToSpaces_blank_line_restarts_indent Ref.Map Ref_Map_applies
           before blank after 0 eq_refl).
Defined.

(** The first line of [x], an empty line and [y] behind two tabs: the
    dedent of two takes the [x] away. *)
Example ConvertTabToSpaces_loses_text :
  ConvertTabToSpaces Ref.Map ("x" +:+ nl +:+ nl +:+ tabs 2 +:+ "y") 0
  = nl +:+ nl +:+ "y".
Proof. reflexivity. Qed.
